(** * Juttle runtime: views and the [http_server] read adapter

  A shallow embedding of [lib/runtime/procs/view.js], of the
  [ReadHTTPServer] adapter that follows it in the same file, and of
  [perform_run] of the command line front end.

  JavaScript objects become records, mutated fields become explicit
  state passing, and the Node event loop becomes a step function on a
  [world]: the adapter object, the promises it has handed out, the
  logical clock that arms the read timers, and the observable logs
  (HTTP responses, [trigger] calls). *)

From Stdlib Require Import ZArith Ascii.
From stdpp Require Import base tactics option list strings pretty.

Local Open Scope string_scope.
Local Open Scope list_scope.

(** ** JavaScript values *)

Module JS.

(** The values an option, a time stamp or a field of a point can hold. *)
#[local] Unset Elimination Schemes.
Inductive value :=
| Undefined
| Null
| Bool (b : bool)
| Num (n : Z)
| Str (s : string)
| Arr (elems : list value)
| Obj (fields : list (string * value)).
#[local] Set Elimination Schemes.

(** ToBoolean. *)
Definition truthy (v : value) : bool :=
  match v with
  | Undefined | Null => false
  | Bool b => b
  | Num n => negb (n =? 0)%Z
  | Str s => negb (String.eqb s EmptyString)
  | Arr _ | Obj _ => true
  end.

(** [a || b] *)
Definition or_else (a b : value) : value := if truthy a then a else b.

(** [v === s] for a string literal [s]. *)
Definition is_str (s : string) (v : value) : bool :=
  match v with
  | Str s' => String.eqb s' s
  | _ => false
  end.

(** [strs.indexOf(v) === -1] for an array of string literals. *)
Definition not_among (strs : list string) (v : value) : bool :=
  negb (existsb (fun s => is_str s v) strs).

(** [_.isArray(v)] *)
Definition isArray (v : value) : bool :=
  match v with Arr _ => true | _ => false end.

(** [strs.join(sep)] *)
Fixpoint join (sep : string) (strs : list string) : string :=
  match strs with
  | [] => EmptyString
  | [s] => s
  | s :: rest => s +:+ sep +:+ join sep rest
  end.

(** [s.split(c)] for a one character separator: never the empty list. *)
Fixpoint split (c : Ascii.ascii) (s : string) : list string :=
  match s with
  | EmptyString => [EmptyString]
  | String a rest =>
      if Ascii.eqb a c then EmptyString :: split c rest
      else match split c rest with
           | [] => [String a EmptyString]
           | hd :: tl => String a hd :: tl
           end
  end.

(** An error object, by the two fields the runtime looks at: [err.code]
    (undefined on a plain [Error]) and [err.message]. *)
Record error := Error {
  code : option string;
  message : string
}.

End JS.

(** ** Views ([view.js]) *)

Module View.

(** What a view does to the outside: [program.events.emit(name, payload)]
    on the program's event bus, and the call of the sink's [done]. *)
Inductive action :=
| Emit (event : string) (payload : JS.value)
| Done (channel : string).

(** The part of the program object a view touches: the channel counter
    and the event bus, kept as the log of what was done on it. *)
Record program := Program {
  channels : N;
  log : list action
}.

Record view := View {
  name : JS.value;
  channel : string
}.

Definition emit (event : string) (payload : JS.value) (p : program) : program :=
  {| channels := channels p; log := log p ++ [Emit event payload] |}.

(** [this.done()], inherited from the sink. *)
Definition done (v : view) (p : program) : program :=
  {| channels := channels p; log := log p ++ [Done (channel v)] |}.

(** [this.channel = 'view' + (program.channels++)] *)
Definition initialize (params_name : JS.value) (p : program) : view * program :=
  ({| name := params_name; channel := "view" +:+ pretty (channels p) |},
   {| channels := N.succ (channels p); log := log p |}).

Definition mark (v : view) (time : JS.value) (p : program) : program :=
  emit "view:mark" (JS.Obj [("channel", JS.Str (channel v)); ("time", time)]) p.

Definition tick (v : view) (time : JS.value) (p : program) : program :=
  emit "view:tick" (JS.Obj [("channel", JS.Str (channel v)); ("time", time)]) p.

Definition eof (v : view) (p : program) : program :=
  done v (emit "view:eof" (JS.Obj [("channel", JS.Str (channel v))]) p).

Definition process (v : view) (points : JS.value) (p : program) : program :=
  emit "view:points" (JS.Obj [("channel", JS.Str (channel v)); ("points", points)]) p.

(** Building the views of one program, one after the other. *)
Fixpoint construct (names : list JS.value) (p : program) : list view * program :=
  match names with
  | [] => ([], p)
  | n :: rest =>
      let '(v, p1) := initialize n p in
      let '(vs, p2) := construct rest p1 in
      (v :: vs, p2)
  end.

(** The calls a running program makes on a view. *)
Inductive call :=
| Mark (time : JS.value)
| Tick (time : JS.value)
| Process (points : JS.value)
| Eof.

Definition perform (v : view) (c : call) (p : program) : program :=
  match c with
  | Mark t => mark v t p
  | Tick t => tick v t p
  | Process pts => process v pts p
  | Eof => eof v p
  end.

End View.

(** ** The [http_server] read adapter ([ReadHTTPServer]) *)

Module HttpServer.

Definition point := JS.value.

(** What [this.compileError(code, info)] builds and the constructor throws. *)
Record compile_error := CompileError {
  ce_code : string;
  ce_info : list (string * string)
}.

(** The options object of [read http_server]. [every] is a duration,
    kept by what its [milliseconds()] returns; the parser's own options
    ([rootPath], [separator], ...) are carried along unread. *)
Record options := Options {
  opt_port : JS.value;
  opt_method : JS.value;
  opt_timeField : JS.value;
  opt_every : option Z;
  opt_parser : list (string * JS.value)
}.

Record params := Params {
  filter_ast : option JS.value
}.

(** What [parser.parseStream(req, cb)] does with a request body: the
    payloads it hands to [cb], in order, and the error it rejects with,
    if any. An error thrown by [parsers.getParser] itself is a failure
    with nothing emitted. *)
Record parsed := Parsed {
  emitted : list JS.value;
  failure : option JS.error
}.

(** What Node accepts as [res.statusMessage]: every character is a tab
    or lies in 0x20..0x7e or 0x80..0xff. A [string] is the text in UTF-8,
    so the characters 0x80..0xff are the two byte sequences that start
    with 0xc2 or 0xc3, and any other byte above 0x7f belongs to a
    character that is not allowed. *)
Fixpoint legal_status_text (s : string) : bool :=
  match s with
  | EmptyString => true
  | String c rest =>
      let n := Ascii.N_of_ascii c in
      if (n <? 128)%N then
        ((n =? 9)%N || ((32 <=? n)%N && (n <=? 126)%N)) && legal_status_text rest
      else if (n =? 194)%N || (n =? 195)%N then
        match rest with
        | String _ rest' => legal_status_text rest'
        | EmptyString => false
        end
      else false
  end.

(** The collaborators of the adapter that live in other files: the
    parsers, and [parseTime] and [runtimeError] of the adapter base
    class. [parseTime] gives the points back with their time parsed and
    triggers a warning where it finds none to parse: [timeWarnings] are
    the errors it triggers them with. The messages of the adapter's own
    two errors are fixed texts that can be sent as a status text. *)
Class Runtime := {
  stream : Type;
  parseStream : string → options → stream → parsed;
  parseTime : list point → JS.value → list point;
  timeWarnings : list point → JS.value → list JS.error;
  errorMessage : string → list (string * string) → string;
  method_text_legal :
    legal_status_text (errorMessage "INVALID-HTTP-METHOD" [("types", "POST")]) = true;
  type_text_legal :
    legal_status_text (errorMessage "INVALID-TYPE" [("types", "csv, json")]) = true
}.

(** An incoming request: [req.method], the media type found by
    [contentType.parse(req).type] ([None] when that call throws), and
    the body stream. *)
Record request `{Runtime} := Request {
  req_method : string;
  req_type : option string;
  req_body : stream
}.

Record response := Response {
  statusCode : Z;
  statusMessage : option string;
  body : string
}.

(** The result object of a read: [{}] or [{points: [...]}]. *)
Inductive result :=
| Nothing
| Points (pts : list point).

(** The promise a suspended [read] returns is
    [new Promise(...).timeout(readEvery).catch(Promise.TimeoutError, ...)].
    [timed] is the state of the [.timeout] promise: it follows the inner
    promise unless the timer, armed for [deadline], fires first. *)
Inductive timed_state :=
| Pending
| Fulfilled (r : result)
| TimedOut.

Record read_promise := ReadPromise {
  deadline : Z;
  timed : timed_state
}.

(** [.catch(Promise.TimeoutError, (err) => { return {}; })]:
    what the caller of [read] sees. [None] while still suspended. *)
Definition settled (p : read_promise) : option result :=
  match timed p with
  | Pending => None
  | Fulfilled r => Some r
  | TimedOut => Some Nothing
  end.

(** The fields of a [ReadHTTPServer] object. [pendingRead] holds the
    [resolve] function of a read promise, named by its index. *)
Record adapter := Adapter {
  port : JS.value;
  method : JS.value;
  timeField : JS.value;
  readEvery : Z;
  parserOptions : options;
  points : list point;
  pendingRead : option nat;
  pendingReadLimit : option nat;
  server : bool
}.

Definition allowed_methods : list string := ["POST"; "PUT"].

Definition compileError (c : string) (info : list (string * string)) : compile_error :=
  {| ce_code := c; ce_info := info |}.

(** [constructor(options, params)] *)
Definition constructor (o : options) (pa : params) : compile_error + adapter :=
  if JS.truthy (opt_method o) && JS.not_among allowed_methods (opt_method o) then
    inl (compileError "INVALID-OPTION-VALUE"
           [("option", "method"); ("supported", JS.join ", " allowed_methods)])
  else
    match filter_ast pa with
    | Some _ =>
        inl (compileError "ADAPTER-UNSUPPORTED-FILTER"
               [("proc", "read http_server"); ("filter", "filtering")])
    | None =>
        inr {| port := JS.or_else (opt_port o) (JS.Num 8080);
               method := JS.or_else (opt_method o) (JS.Str "POST");
               timeField := opt_timeField o;
               readEvery := match opt_every o with Some ms => ms | None => 50 end;
               parserOptions := o;
               points := [];
               pendingRead := None;
               pendingReadLimit := None;
               server := false |}
    end.

Definition set_points (pts : list point) (a : adapter) : adapter :=
  {| port := port a; method := method a; timeField := timeField a;
     readEvery := readEvery a; parserOptions := parserOptions a;
     points := pts;
     pendingRead := pendingRead a; pendingReadLimit := pendingReadLimit a;
     server := server a |}.

Definition set_pending (pid limit : nat) (a : adapter) : adapter :=
  {| port := port a; method := method a; timeField := timeField a;
     readEvery := readEvery a; parserOptions := parserOptions a;
     points := points a;
     pendingRead := Some pid; pendingReadLimit := Some limit;
     server := server a |}.

Definition set_server (a : adapter) : adapter :=
  {| port := port a; method := method a; timeField := timeField a;
     readEvery := readEvery a; parserOptions := parserOptions a;
     points := points a;
     pendingRead := pendingRead a; pendingReadLimit := pendingReadLimit a;
     server := true |}.

(** [this.points.splice(0, limit)]; an undefined count removes nothing. *)
Definition splice0 (limit : option nat) (pts : list point) : list point * list point :=
  match limit with
  | Some n => (take n pts, drop n pts)
  | None => ([], pts)
  end.

(** [readResult(limit)] *)
Definition readResult (limit : option nat) (a : adapter) : result * adapter :=
  let '(removed, rest) := splice0 limit (points a) in
  (Points removed, set_points rest a).

(** The event loop around one adapter: the promises handed out by
    [read] and by [teardown], the [close] callbacks registered on the
    server, the clock, and the logs of responses and [trigger] calls.
    [unsent] are the responses at which [res.end()] threw: nothing went
    out, and the exception left the request listener uncaught. *)
Record world := World {
  self : adapter;
  now : Z;
  reads : list read_promise;
  teardowns : list bool;
  on_close : list nat;
  responses : list response;
  triggered : list (string * JS.error);
  unsent : list response
}.

Definition with_self (a : adapter) (w : world) : world :=
  {| self := a; now := now w; reads := reads w; teardowns := teardowns w;
     on_close := on_close w; responses := responses w; triggered := triggered w;
     unsent := unsent w |}.

Definition with_reads (rs : list read_promise) (w : world) : world :=
  {| self := self w; now := now w; reads := rs; teardowns := teardowns w;
     on_close := on_close w; responses := responses w; triggered := triggered w;
     unsent := unsent w |}.

(** Calling the [resolve] function of read promise [pid]: nothing
    happens once the promise has been fulfilled or has timed out. *)
Definition fulfil (r : result) (p : read_promise) : read_promise :=
  match timed p with
  | Pending => {| deadline := deadline p; timed := Fulfilled r |}
  | _ => p
  end.

Definition resolve (pid : nat) (r : result) (w : world) : world :=
  with_reads (alter (fulfil r) pid (reads w)) w.

(** [read(from, to, limit, state)]: the result at once, or the index of
    the promise the caller is left with. *)
Inductive read_return :=
| Now (r : result)
| Later (pid : nat).

Definition read (limit : nat) (w : world) : read_return * world :=
  if (0 <? length (points (self w)))%nat then
    let '(r, a) := readResult (Some limit) (self w) in
    (Now r, with_self a w)
  else
    let pid := length (reads w) in
    (Later pid,
     with_reads
       (reads w ++ [{| deadline := now w + readEvery (self w); timed := Pending |}])
       (with_self (set_pending pid limit (self w)) w)).

(** The timer of [.timeout(readEvery)] firing at time [t]. *)
Definition expire (t : Z) (p : read_promise) : read_promise :=
  match timed p with
  | Pending =>
      if (deadline p <=? t)%Z then {| deadline := deadline p; timed := TimedOut |}
      else p
  | _ => p
  end.

Definition elapse (dt : N) (w : world) : world :=
  let t := (now w + Z.of_N dt)%Z in
  {| self := self w; now := t; reads := expire t <$> reads w;
     teardowns := teardowns w; on_close := on_close w;
     responses := responses w; triggered := triggered w;
     unsent := unsent w |}.

(** [res.end()] after the status fields have been set. *)
Definition respond (r : response) (w : world) : world :=
  {| self := self w; now := now w; reads := reads w; teardowns := teardowns w;
     on_close := on_close w; responses := responses w ++ [r];
     triggered := triggered w; unsent := unsent w |}.

(** [this.trigger(type, err)] *)
Definition trigger (type : string) (err : JS.error) (w : world) : world :=
  {| self := self w; now := now w; reads := reads w; teardowns := teardowns w;
     on_close := on_close w; responses := responses w;
     triggered := triggered w ++ [(type, err)]; unsent := unsent w |}.

(** [err.code === c] *)
Definition code_is (c : string) (err : JS.error) : bool :=
  match JS.code err with
  | Some c' => String.eqb c' c
  | None => false
  end.

(** [res.end()] throwing on the status text of [r]. *)
Definition refuse (r : response) (w : world) : world :=
  {| self := self w; now := now w; reads := reads w; teardowns := teardowns w;
     on_close := on_close w; responses := responses w;
     triggered := triggered w; unsent := unsent w ++ [r] |}.

(** [res.end()] where [res.statusMessage] has been assigned: the
    response goes out when the text is legal, and the call throws when
    it is not. *)
Definition end_response (r : response) (w : world) : world :=
  match statusMessage r with
  | Some text => if legal_status_text text then respond r w else refuse r w
  | None => respond r w
  end.

(** The status fields [handleListenError] sets for [err]. *)
Definition error_response (err : JS.error) : response :=
  {| statusCode := if code_is "INVALID-TYPE" err then 415%Z
                   else if code_is "INVALID-HTTP-METHOD" err then 404%Z
                   else 400%Z;
     statusMessage := Some (JS.message err);
     body := EmptyString |}.

(** [handleListenError(res, err)]: the error is triggered before the
    response is ended. *)
Definition handleListenError (err : JS.error) (w : world) : world :=
  end_response (error_response err) (trigger "error" err w).

Section Server.
Context `{Runtime}.

Definition runtimeError (c : string) (info : list (string * string)) : JS.error :=
  {| JS.code := Some c; JS.message := errorMessage c info |}.

(** [if (!_.isArray(points)) { points = [points]; }] *)
Definition coerce (payload : JS.value) : list point :=
  match payload with
  | JS.Arr pts => pts
  | v => [v]
  end.

(** [this.trigger('warning', ...)] for each warning of [parseTime]. *)
Definition warn (warnings : list JS.error) (w : world) : world :=
  foldl (fun w e => trigger "warning" e w) w warnings.

(** Lines 118 to 123 of the parser callback: [parseTime] goes through
    the points of the payload, triggering its warnings, and the points go
    to the end of the buffer. *)
Definition append_points (payload : JS.value) (w : world) : world :=
  let pts := coerce payload in
  with_self
    (set_points (points (self w) ++ parseTime pts (timeField (self w))) (self w))
    (warn (timeWarnings pts (timeField (self w))) w).

(** Lines 128 to 130: [if (this.pendingRead) { this.pendingRead(...) }] *)
Definition wake (w : world) : world :=
  match pendingRead (self w) with
  | Some pid =>
      let '(r, a) := readResult (pendingReadLimit (self w)) (self w) in
      resolve pid r (with_self a w)
  | None => w
  end.

(** The callback handed to [parseStream]. *)
Definition on_points (w : world) (payload : JS.value) : world :=
  wake (append_points payload w).

(** [contentType.parse(req).type.split('/')[1]], undefined on a throw. *)
Definition format_of (type : option string) : option string :=
  t ← type; JS.split "/"%char t !! 1%nat.

Definition supported (format : option string) : option string :=
  match format with
  | Some f => if String.eqb f "json" || String.eqb f "csv" then Some f else None
  | None => None
  end.

(** The request listener given to [http.createServer]. The body is
    parsed within the turn of the event loop that handles the request. *)
Definition handle_request (req : request) (w : world) : world :=
  if negb (JS.is_str (req_method req) (method (self w))) then
    handleListenError (runtimeError "INVALID-HTTP-METHOD" [("types", "POST")]) w
  else
    match supported (format_of (req_type req)) with
    | None =>
        handleListenError (runtimeError "INVALID-TYPE" [("types", "csv, json")]) w
    | Some f =>
        let p := parseStream f (parserOptions (self w)) (req_body req) in
        let w1 := foldl on_points w (emitted p) in
        match failure p with
        | None =>
            respond {| statusCode := 200; statusMessage := None; body := EmptyString |} w1
        | Some err => handleListenError err w1
        end
    end.

(** [start()] *)
Definition start (w : world) : world := with_self (set_server (self w)) w.

(** [teardown()]: the index of the promise it returns. With a server,
    its [resolve] waits in the server's [close] callback. *)
Definition teardown (w : world) : nat * world :=
  let tid := length (teardowns w) in
  if server (self w) then
    (tid,
     {| self := self w; now := now w; reads := reads w;
        teardowns := teardowns w ++ [false]; on_close := on_close w ++ [tid];
        responses := responses w; triggered := triggered w;
     unsent := unsent w |})
  else
    (tid,
     {| self := self w; now := now w; reads := reads w;
        teardowns := teardowns w ++ [true]; on_close := on_close w;
        responses := responses w; triggered := triggered w;
     unsent := unsent w |}).

(** The server has closed: the callbacks given to [server.close] run. *)
Definition closed (w : world) : world :=
  {| self := self w; now := now w; reads := reads w;
     teardowns := foldl (fun ts tid => <[tid := true]> ts) (teardowns w) (on_close w);
     on_close := [];
     responses := responses w; triggered := triggered w;
     unsent := unsent w |}.

(** What can happen to the adapter, one event loop turn at a time. *)
Inductive event :=
| Start
| Incoming (req : request)
| Read (limit : nat)
| Elapse (dt : N)
| Teardown
| Closed.

Definition step (w : world) (e : event) : world :=
  match e with
  | Start => start w
  | Incoming req => handle_request req w
  | Read limit => (read limit w).2
  | Elapse dt => elapse dt w
  | Teardown => (teardown w).2
  | Closed => closed w
  end.

Definition run (w : world) (es : list event) : world := foldl step w es.

(** A fresh adapter in an event loop where nothing has happened yet. *)
Definition boot (a : adapter) : world :=
  {| self := a; now := 0; reads := []; teardowns := []; on_close := [];
     responses := []; triggered := []; unsent := [] |}.



End Server.

(** The parser callback touches the buffer and the read promises, and
    triggers warnings; nothing else. *)
Definition same_outside (w w' : world) : Prop :=
  responses w' = responses w
  ∧ (∃ ws, triggered w' = triggered w ++ ws ∧ Forall (fun t => t.1 = "warning") ws)
  ∧ now w' = now w ∧ teardowns w' = teardowns w ∧ on_close w' = on_close w
  ∧ method (self w') = method (self w)
  ∧ timeField (self w') = timeField (self w)
  ∧ readEvery (self w') = readEvery (self w)
  ∧ parserOptions (self w') = parserOptions (self w)
  ∧ server (self w') = server (self w)
  ∧ pendingRead (self w') = pendingRead (self w)
  ∧ pendingReadLimit (self w') = pendingReadLimit (self w)
  ∧ length (reads w') = length (reads w)
  ∧ unsent w' = unsent w.

(** A promise keeps its place and its deadline, and does not change any
    more once it has been fulfilled or has timed out. *)
Definition follows (pr pr' : read_promise) : Prop :=
  deadline pr' = deadline pr ∧ (timed pr ≠ Pending → pr' = pr).

(** The last response sent. *)
Definition reply (w : world) : option response := last (responses w).

(** A runtime for running the adapter on concrete requests: the body of
    a request is the script of what the parser does with it, times are
    left as they are without a warning, and the message of an error is
    its code. *)
Definition scripted : Runtime :=
  {| stream := parsed;
     parseStream := fun _ _ script => script;
     parseTime := fun pts _ => pts;
     timeWarnings := fun _ _ => [];
     errorMessage := fun c _ => c;
     method_text_legal := eq_refl;
     type_text_legal := eq_refl |}.



(** [read http_server] without options. *)
Definition no_options : options :=
  {| opt_port := JS.Undefined; opt_method := JS.Undefined;
     opt_timeField := JS.Undefined; opt_every := None; opt_parser := [] |}.

Definition with_method (m : JS.value) (o : options) : options :=
  {| opt_port := opt_port o; opt_method := m; opt_timeField := opt_timeField o;
     opt_every := opt_every o; opt_parser := opt_parser o |}.

(** The adapter [read http_server] builds without options. *)
Definition default_adapter : adapter :=
  {| port := JS.Num 8080; method := JS.Str "POST"; timeField := JS.Undefined;
     readEvery := 50; parserOptions := no_options; points := [];
     pendingRead := None; pendingReadLimit := None; server := false |}.

(** A [POST] of [application/json] whose body the parser treats as [script]. *)
Definition post_json (script : parsed) : @request scripted :=
  @Request scripted "POST" (Some "application/json") script.

End HttpServer.

(** ** Running a program from the command line ([perform_run]) *)

Module Cli.

(** How a promise ends. *)
Inductive settlement :=
| Resolves
| Rejects (e : JS.error).

Inductive promise :=
| Pending
| Settled (s : settlement).

(** What reaches [perform_run] once the program is activated: events on
    [program.events] and on [view_mgr.events], and the settling of
    [program.done()] and of [views_done]. *)
Inductive signal :=
| ProgramError (msg : string) (err : JS.error)
| ProgramWarning (msg : string)
| ViewError (msg : string) (err : JS.error)
| ViewWarning (msg : string)
| DoneSettles (s : settlement)
| ViewsDoneSettle (s : settlement).

(** The variables of one run, from the moment the program has been
    compiled and the callback of [perform_compile(options).then] has
    activated it: the flag, whether the listeners on [program.events]
    are attached, the two promises waited for, what was passed to
    [CliErrors.handle_error] and to [console.warn], and [outcome], the
    promise of the chain, which the promise [perform_run] returned,
    pending since the call, follows from here on. [current_program]
    tells what this run has last assigned to the variable of that name:
    the program at activation, [undefined] in [finally]. The variable
    belongs to the script, and a run that overlaps assigns it too. *)
Record run_state := RunState {
  had_an_error : bool;
  current_program : bool;
  listening : bool;
  deactivated : bool;
  program_done : promise;
  views_done : promise;
  handled : list JS.error;
  console : list string;
  outcome : promise
}.

(** The state after [program.activate()], where the run starts here.
    Compilation comes before it: the promise [perform_run] returned is
    pending by then and [current_program] not yet assigned. *)
Definition activated : run_state :=
  {| had_an_error := false; current_program := true; listening := true;
     deactivated := false; program_done := Pending; views_done := Pending;
     handled := []; console := []; outcome := Pending |}.

(** The body of both [error] listeners. *)
Definition on_error (err : JS.error) (st : run_state) : run_state :=
  {| had_an_error := true; current_program := current_program st;
     listening := listening st; deactivated := deactivated st;
     program_done := program_done st; views_done := views_done st;
     handled := handled st ++ [err]; console := console st;
     outcome := outcome st |}.

(** The body of both [warning] listeners. *)
Definition on_warning (msg : string) (st : run_state) : run_state :=
  {| had_an_error := had_an_error st; current_program := current_program st;
     listening := listening st; deactivated := deactivated st;
     program_done := program_done st; views_done := views_done st;
     handled := handled st; console := console st ++ ["Warning: " +:+ msg];
     outcome := outcome st |}.

(** [program.events.off()] then [program.deactivate()]. [off] is called
    without the name of an event and removes no listener. *)
Definition off_and_deactivate (st : run_state) : run_state :=
  {| had_an_error := had_an_error st; current_program := current_program st;
     listening := listening st; deactivated := true;
     program_done := program_done st; views_done := views_done st;
     handled := handled st; console := console st;
     outcome := outcome st |}.

Definition terminated_with_errors : JS.error :=
  {| JS.code := None; JS.message := "Program terminated with errors" |}.

(** The [finally] handler, reached with the settlement [s] of the chain
    before it. *)
Definition finally (s : settlement) (st : run_state) : run_state :=
  {| had_an_error := had_an_error st; current_program := false;
     listening := listening st; deactivated := deactivated st;
     program_done := program_done st; views_done := views_done st;
     handled := handled st; console := console st;
     outcome := Settled (if had_an_error st then Rejects terminated_with_errors else s) |}.

(** The chain [program.done().then(views_done).then(off).then(deactivate)
    .finally(...)], run as far as the two promises allow. *)
Definition advance (st : run_state) : run_state :=
  match outcome st with
  | Settled _ => st
  | Pending =>
      match program_done st with
      | Pending => st
      | Settled (Rejects e) => finally (Rejects e) st
      | Settled Resolves =>
          match views_done st with
          | Pending => st
          | Settled (Rejects e) => finally (Rejects e) st
          | Settled Resolves => finally Resolves (off_and_deactivate st)
          end
      end
  end.

Definition settle_done (s : settlement) (st : run_state) : run_state :=
  match program_done st with
  | Settled _ => st
  | Pending =>
      {| had_an_error := had_an_error st; current_program := current_program st;
         listening := listening st; deactivated := deactivated st;
         program_done := Settled s; views_done := views_done st;
         handled := handled st; console := console st;
         outcome := outcome st |}
  end.

Definition settle_views (s : settlement) (st : run_state) : run_state :=
  match views_done st with
  | Settled _ => st
  | Pending =>
      {| had_an_error := had_an_error st; current_program := current_program st;
         listening := listening st; deactivated := deactivated st;
         program_done := program_done st; views_done := Settled s;
         handled := handled st; console := console st;
         outcome := outcome st |}
  end.

Definition on_signal (st : run_state) (sg : signal) : run_state :=
  match sg with
  | ProgramError _ err => if listening st then on_error err st else st
  | ProgramWarning msg => if listening st then on_warning msg st else st
  | ViewError _ err => on_error err st
  | ViewWarning msg => on_warning msg st
  | DoneSettles s => advance (settle_done s st)
  | ViewsDoneSettle s => advance (settle_views s st)
  end.

(** [perform_run], from the activation of the program on. *)
Definition perform_run (sgs : list signal) : run_state := foldl on_signal activated sgs.


End Cli.

(** ** Runs of the adapter seen from outside *)

Module Traffic.
Import HttpServer.

Section Traffic.
Context `{Runtime}.

(** The points the parser callback puts into the buffer while the event
    is handled by an adapter with the method, time field and parser
    options of [a]: those of every payload the parser emits, and none for
    a request that is rejected before the parser, or for another event. *)
Definition arrivals (a : adapter) (e : event) : list point :=
  match e with
  | Incoming req =>
      if JS.is_str (req_method req) (method a) then
        match supported (format_of (req_type req)) with
        | Some f =>
            payload ← emitted (parseStream f (parserOptions a) (req_body req));
            parseTime (coerce payload) (timeField a)
        | None => []
        end
      else []
  | _ => []
  end.

(** [read] called once per limit, one call after the other. *)
Fixpoint read_each (limits : list nat) (w : world) : list read_return * world :=
  match limits with
  | [] => ([], w)
  | limit :: rest =>
      let '(r, w1) := read limit w in
      let '(rs, w2) := read_each rest w1 in
      (r :: rs, w2)
  end.

(** Whether each of these reads finds something in a buffer of [n]
    points that nothing is added to. *)
Fixpoint served (limits : list nat) (n : nat) : bool :=
  match limits with
  | [] => true
  | limit :: rest => (0 <? n)%nat && served rest (n - limit)
  end.

Definition is_request (e : event) : bool :=
  match e with Incoming _ => true | _ => false end.

End Traffic.

Definition refused (r : response) : bool := negb (statusCode r =? 200)%Z.

(** An [error] event whose message [res.end()] accepts as status text,
    and one whose message it does not. *)
Definition answered (t : string * JS.error) : bool :=
  String.eqb t.1 "error" && legal_status_text (JS.message t.2).

Definition unanswered (t : string * JS.error) : bool :=
  String.eqb t.1 "error" && negb (legal_status_text (JS.message t.2)).

(** The statuses the request listener sets. *)
Definition known_status (r : response) : bool :=
  (statusCode r =? 200)%Z || (statusCode r =? 400)%Z
  || (statusCode r =? 404)%Z || (statusCode r =? 415)%Z.

(** Whether the character [c] does not occur in [s]. *)
Fixpoint free_of (c : Ascii.ascii) (s : string) : bool :=
  match s with
  | EmptyString => true
  | String a rest => negb (Ascii.eqb a c) && free_of c rest
  end.

End Traffic.

(** ** Listening to the event bus *)

Module Bus.
Import View.

(** [obj[key]] *)
Fixpoint get (key : string) (fields : list (string * JS.value)) : JS.value :=
  match fields with
  | [] => JS.Undefined
  | (k, v) :: rest => if String.eqb k key then v else get key rest
  end.

(** Whether an entry of the log is an event on the bus whose payload
    has [channel] equal to [ch]: what a subscriber that follows one view
    keeps. *)
Definition on_channel (ch : string) (a : action) : bool :=
  match a with
  | Emit _ (JS.Obj fields) => JS.is_str ch (get "channel" fields)
  | _ => false
  end.

Definition heard (ch : string) (l : list action) : list action :=
  filter (fun a => on_channel ch a) l.

(** A program before anything has happened on its bus. *)
Definition silent : program := {| channels := 0; log := [] |}.

(** Calls made on the views of a program, each on the view at a
    position of [vs]. *)
Definition play (vs : list view) (p : program) (calls : list (nat * call)) : program :=
  foldl (fun p ic => match vs !! ic.1 with
                     | Some v => perform v ic.2 p
                     | None => p
                     end) p calls.

(** The calls made on the view at position [i]. *)
Definition calls_on (i : nat) (calls : list (nat * call)) : list call :=
  snd <$> filter (fun ic => ic.1 = i) calls.

(** The name of the event of each call. *)
Definition event_name (c : call) : string :=
  match c with
  | Mark _ => "view:mark"
  | Tick _ => "view:tick"
  | Process _ => "view:points"
  | Eof => "view:eof"
  end.

End Bus.

(** ** What a run leaves behind *)

Module Run.
Import Cli.

(** The settlement of [program.done().then(views_done)], the part of
    the chain before [finally]. *)
Definition chain (st : run_state) : promise :=
  match program_done st with
  | Pending => Pending
  | Settled (Rejects e) => Settled (Rejects e)
  | Settled Resolves => views_done st
  end.

(** How the variables of a run hang together. *)
Definition tidy (st : run_state) : Prop :=
  (current_program st = true ↔ outcome st = Pending)
  ∧ (outcome st = Pending ↔ chain st = Pending)
  ∧ (deactivated st = true ↔ chain st = Settled Resolves)
  ∧ listening st = true
  ∧ (∀ s, outcome st = Settled s →
       s = Rejects terminated_with_errors ∨ Settled s = chain st)
  ∧ (had_an_error st = false → outcome st = chain st)
  ∧ (handled st = [] ↔ had_an_error st = false).

(** Two states of a run that differ in what was printed only. *)
Definition same_but_console (a b : run_state) : Prop :=
  had_an_error a = had_an_error b ∧ current_program a = current_program b
  ∧ listening a = listening b ∧ deactivated a = deactivated b
  ∧ program_done a = program_done b ∧ views_done a = views_done b
  ∧ handled a = handled b ∧ outcome a = outcome b.

Definition is_error (sg : signal) : bool :=
  match sg with ProgramError _ _ | ViewError _ _ => true | _ => false end.

Definition is_warning (sg : signal) : bool :=
  match sg with ProgramWarning _ | ViewWarning _ => true | _ => false end.

End Run.

(** ** The front end around a run ([show], [perform_mode], the start) *)

Module Front.
Import Cli.

(** What the front end does that can be seen from outside. *)
Inductive effect :=
| ShowCode (code : string)
| ShowObject (obj : JS.value)
| HandleError (e : JS.error)
| Prompt (text : string)
| PrintArgv
| PrintError (text : string)
| Usage
| SetupCline
| Exit (status : Z).

(** [show(thing)] *)
Definition show (thing : JS.value) : list effect :=
  match thing with
  | JS.Undefined => []
  | JS.Str code => [ShowCode code]
  | obj => [ShowObject obj]
  end.

(** How the promise of [perform_run] or [perform_compile] ends. *)
Inductive ending :=
| Fulfils (thing : JS.value)
| Fails (e : JS.error).

(** [usage()]: the help text, then [process.exit(1)]. *)
Definition usage : list effect := [Usage; Exit 1].

Section PerformMode.

(** [e instanceof errors.JuttleError]; the class is in another file. *)
Variable instanceof_JuttleError : JS.error → bool.

(** The tail of [perform_mode]:
    [promise.then(show).then(prompt if prompt_when_done).catch(...)],
    for a promise that ends with [e]. An undefined [prompt_when_done]
    counts as true. *)
Definition perform_mode (prompt : string) (prompt_when_done : option bool) (e : ending)
  : list effect * settlement :=
  let prompting := default true prompt_when_done in
  match e with
  | Fulfils thing =>
      (show thing ++ (if prompting then [Prompt prompt] else []), Resolves)
  | Fails err =>
      if instanceof_JuttleError err && prompting
      then ([HandleError err; Prompt prompt], Resolves)
      else ([HandleError err], Rejects err)
  end.

(** [perform_mode({..., prompt_when_done: false}).then(exit 0).catch(exit 1)].
    Nothing happens while the promise is pending. *)
Definition batch (prompt : string) (e : option ending) : list effect :=
  match e with
  | None => []
  | Some e =>
      let '(effects, s) := perform_mode prompt (Some false) e in
      effects ++ [Exit (match s with Resolves => 0 | Rejects _ => 1 end)]
  end.

(** The last statement of the script, by [opts._], [opts.e], what
    [fs.readFileSync] gives for a path and how the action on a source
    ends ([None]: never). *)
Definition start (mode prompt : string) (positional : list string) (opt_e : string)
    (readFile : string → JS.error + string)
    (execute : string → string → option ending) : list effect :=
  match positional with
  | _ :: _ :: _ => PrintArgv :: usage
  | [file] =>
      match readFile file with
      | inl err => [PrintError (JS.message err); Exit 1]
      | inr src => batch prompt (execute mode src)
      end
  | [] =>
      if String.eqb opt_e EmptyString then [SetupCline; Prompt prompt]
      else batch prompt (execute mode opt_e)
  end.

End PerformMode.

(** How [perform_run] ends for the caller: with the compile error when
    the program does not compile, and with the outcome of the run after
    the signals [sgs] otherwise. *)
Definition run_ending (compiled : JS.error + unit) (sgs : list signal) : option ending :=
  match compiled with
  | inl err => Some (Fails err)
  | inr _ =>
      match outcome (perform_run sgs) with
      | Pending => None
      | Settled Resolves => Some (Fulfils JS.Undefined)
      | Settled (Rejects err) => Some (Fails err)
      end
  end.

(** An error is taken for a [JuttleError] when it has a code. *)
Definition coded (e : JS.error) : bool :=
  match JS.code e with Some _ => true | None => false end.

End Front.

(** ** The interactive prompt ([setupCline]) *)

Module Repl.

Record state := State {
  mode : string;
  prompt : string;
  in_multi_line : bool;
  multi_line_src : string
}.

(** What a command handler does besides changing the variables. The
    history of [cli] is kept by the calls made on it. *)
Inductive effect :=
| Prompted (text : string)
| Performed (action src : string) (path : option string)
| AnnouncedMultiLine
| CouldNotRead (path : string) (err : JS.error)
| TrimmedHistory
| AddedHistory (item : string).

(** The variables as the script sets them before [setupCline]. *)
Definition initial (opts_mode : string) : state :=
  {| mode := opts_mode;
     prompt := if negb (String.eqb opts_mode "run")
               then "juttle (" +:+ opts_mode +:+ ")> " else "juttle> ";
     in_multi_line := false;
     multi_line_src := EmptyString |}.

Definition newline : Ascii.ascii := "010"%char.

(** [s.replace(/\n/g, ' ')] *)
Fixpoint newlines_to_spaces (s : string) : string :=
  match s with
  | EmptyString => EmptyString
  | String a rest =>
      String (if Ascii.eqb a newline then " "%char else a) (newlines_to_spaces rest)
  end.

(** The commands and events of [cli], with what [fs.readFileSync]
    gives for the path of [src]. *)
Inductive command :=
| SetMode (m : string)
| Source (path : string) (content : JS.error + string)
| Begin
| Juttle (input : string)
| Dot
| History (item : string)
| UsageShown.

Definition handle (st : state) (c : command) : state * list effect :=
  match c with
  | SetMode m =>
      let p := if String.eqb m "run" then "juttle> " else "juttle (" +:+ m +:+ ")> " in
      ({| mode := m; prompt := p; in_multi_line := in_multi_line st;
          multi_line_src := multi_line_src st |},
       [Prompted p])
  | Source path content =>
      match content with
      | inl err => (st, [CouldNotRead path err; Prompted (prompt st)])
      | inr src => (st, [Performed (mode st) src (Some path)])
      end
  | Begin =>
      ({| mode := mode st; prompt := prompt st; in_multi_line := true;
          multi_line_src := EmptyString |},
       [AnnouncedMultiLine; Prompted EmptyString; TrimmedHistory])
  | Juttle input =>
      if in_multi_line st then
        ({| mode := mode st; prompt := prompt st; in_multi_line := true;
            multi_line_src := multi_line_src st +:+ input +:+ String newline EmptyString |},
         [])
      else (st, [Performed (mode st) input None])
  | Dot =>
      if negb (in_multi_line st) then (st, [Prompted (prompt st)])
      else
        ({| mode := mode st; prompt := prompt st; in_multi_line := false;
            multi_line_src := multi_line_src st |},
         [AddedHistory (newlines_to_spaces (multi_line_src st));
          Performed (mode st) (multi_line_src st) None])
  | History _ => (st, if in_multi_line st then [TrimmedHistory] else [])
  | UsageShown => (st, [Prompted (prompt st)])
  end.

Fixpoint session (st : state) (cs : list command) : state * list effect :=
  match cs with
  | [] => (st, [])
  | c :: rest =>
      let '(st1, fx1) := handle st c in
      let '(st2, fx2) := session st1 rest in
      (st2, fx1 ++ fx2)
  end.

(** The lines typed, among commands. *)
Definition typed (cs : list command) : list string :=
  omap (fun c => match c with Juttle input => Some input | _ => None end) cs.

(** Lines one after the other, each with its newline. *)
Definition lines_typed (lines : list string) : string :=
  foldr (fun line acc => line +:+ String newline acc) EmptyString lines.

Definition is_typing (c : command) : bool :=
  match c with Juttle _ | History _ => true | _ => false end.

Definition is_performed (e : effect) : bool :=
  match e with Performed _ _ _ => true | _ => false end.

End Repl.

(** * Properties *)

(** ** JavaScript values *)

Lemma is_str_spec s v : JS.is_str s v = true ↔ v = JS.Str s.
Proof.
  destruct v; simpl; try (split; [discriminate | intros [=]]).
  rewrite String.eqb_eq. split; [congruence | intros [=]; done].
Qed.

(** ** Views *)

Lemma channel_name_inj (m n : N) :
  "view" +:+ pretty m = "view" +:+ pretty n → m = n.
Proof. intros E. by apply (inj pretty), (inj (String.app "view")). Qed.

Lemma construct_length names p :
  length (View.construct names p).1 = length names.
Proof.
  revert p. induction names as [|n names IH]; intros p; [done|].
  simpl. specialize (IH (View.initialize n p).2). simpl in IH.
  destruct (View.construct names _) as [vs p2]. simpl in *. by rewrite IH.
Qed.

Lemma construct_counter names p :
  View.channels (View.construct names p).2
  = (View.channels p + N.of_nat (length names))%N.
Proof.
  revert p. induction names as [|n names IH]; intros p; simpl.
  - lia.
  - specialize (IH (View.initialize n p).2). simpl in IH.
    destruct (View.construct names _) as [vs p2]. simpl in *. lia.
Qed.

Lemma construct_lookup names p i v :
  (View.construct names p).1 !! i = Some v →
  View.channel v = "view" +:+ pretty (View.channels p + N.of_nat i)%N
  ∧ Some (View.name v) = names !! i.
Proof.
  revert p i. induction names as [|n names IH]; intros p i; [done|].
  simpl. specialize (IH (View.initialize n p).2). simpl in IH.
  destruct (View.construct names _) as [vs p2]. simpl in *.
  destruct i as [|i]; simpl.
  - intros [= <-]. simpl. by rewrite N.add_0_r.
  - intros Hv. destruct (IH _ Hv) as [-> ->]. split; [|done].
    do 2 f_equal. lia.
Qed.

Lemma perform_channels v c p :
  View.channels (View.perform v c p) = View.channels p.
Proof. by destruct c. Qed.

(** C6: the view built in position [i] of a program gets the channel
    ["view"] followed by the counter's value at that moment, which is the
    initial value plus [i]; each construction adds one to the counter and
    no call on a view changes it; so channels follow the construction
    order, and any two views of the program have different channels. *)
Theorem view_channels_unique_in_order (names : list JS.value) (p : View.program) :
  let vs := (View.construct names p).1 in
  (∀ n q, View.channel (View.initialize n q).1 = "view" +:+ pretty (View.channels q)
          ∧ View.channels (View.initialize n q).2 = (View.channels q + 1)%N)
  ∧ length vs = length names
  ∧ View.channels (View.construct names p).2
    = (View.channels p + N.of_nat (length names))%N
  ∧ (∀ i v, vs !! i = Some v →
       View.channel v = "view" +:+ pretty (View.channels p + N.of_nat i)%N)
  ∧ (∀ i j v v', vs !! i = Some v → vs !! j = Some v' →
       i ≠ j → View.channel v ≠ View.channel v')
  ∧ NoDup (View.channel <$> vs)
  ∧ (∀ v c q, View.channels (View.perform v c q) = View.channels q).
Proof.
  intros vs.
  assert (Hdiff : ∀ i j v v', vs !! i = Some v → vs !! j = Some v' →
            i ≠ j → View.channel v ≠ View.channel v').
  { intros i j v v' Hi Hj Hne E.
    apply construct_lookup in Hi as [Hi _], Hj as [Hj _].
    rewrite Hi, Hj in E. apply channel_name_inj in E. lia. }
  split_and!.
  - intros n q. simpl. split; [done | lia].
  - apply construct_length.
  - apply construct_counter.
  - intros i v Hv. by apply construct_lookup in Hv as [? _].
  - done.
  - apply NoDup_alt. intros i j c Hi Hj.
    rewrite list_lookup_fmap in Hi, Hj.
    destruct (vs !! i) as [v|] eqn:Ei; [|done].
    destruct (vs !! j) as [v'|] eqn:Ej; [|done].
    simpl in *. destruct (decide (i = j)) as [|Hne]; [done|].
    exfalso. apply (Hdiff i j v v' Ei Ej Hne). congruence.
  - apply perform_channels.
Qed.

(** Three views built in a program whose counter is at 0. *)
Lemma view_channels_unique_in_order_witness :
  let p := {| View.channels := 0; View.log := [] |} in
  let vs := (View.construct [JS.Str "table"; JS.Str "text"; JS.Str "table"] p).1 in
  View.channel <$> vs = ["view0"; "view1"; "view2"]
  ∧ (∀ v, vs !! 1%nat = Some v → View.channel v = "view" +:+ pretty (0 + N.of_nat 1)%N)
  ∧ NoDup (View.channel <$> vs).
Proof.
  intros p vs.
  destruct (view_channels_unique_in_order
              [JS.Str "table"; JS.Str "text"; JS.Str "table"] p)
    as (_ & _ & _ & Hlookup & _ & Hnodup & _).
  split_and!; [reflexivity | exact (Hlookup 1%nat) | exact Hnodup].
Defined.

(** C7: on the event bus of the program, [mark] adds the one event
    [view:mark] with payload [{channel, time}], [tick] the one event
    [view:tick] with [{channel, time}], [process] the one event
    [view:points] with [{channel, points}], and [eof] the event [view:eof]
    with [{channel}] followed by the call of the sink's [done]; the
    channel in each payload is the one of the view called. *)
Theorem view_calls_emit_events (v : View.view) (p : View.program)
    (time points : JS.value) :
  let ch := JS.Str (View.channel v) in
  View.log (View.mark v time p)
    = View.log p ++ [View.Emit "view:mark" (JS.Obj [("channel", ch); ("time", time)])]
  ∧ View.log (View.tick v time p)
    = View.log p ++ [View.Emit "view:tick" (JS.Obj [("channel", ch); ("time", time)])]
  ∧ View.log (View.process v points p)
    = View.log p ++ [View.Emit "view:points" (JS.Obj [("channel", ch); ("points", points)])]
  ∧ View.log (View.eof v p)
    = View.log p ++ [View.Emit "view:eof" (JS.Obj [("channel", ch)]);
                     View.Done (View.channel v)].
Proof.
  simpl. split_and!; try reflexivity.
  unfold View.eof, View.done, View.emit. simpl. by rewrite <- app_assoc.
Qed.

(** ** Construction of the adapter *)

Import HttpServer.

Lemma not_among_allowed v :
  JS.not_among allowed_methods v = false ↔ v = JS.Str "POST" ∨ v = JS.Str "PUT".
Proof.
  unfold JS.not_among, allowed_methods. simpl.
  rewrite negb_false_iff, !orb_true_iff, !is_str_spec.
  split; [intros [?|[?|?]] | intros [?|?]]; auto; discriminate.
Qed.

Lemma constructor_ok_inv o pa a :
  constructor o pa = inr a →
  (JS.truthy (opt_method o) = false ∨ JS.not_among allowed_methods (opt_method o) = false)
  ∧ filter_ast pa = None
  ∧ method a = JS.or_else (opt_method o) (JS.Str "POST")
  ∧ readEvery a = match opt_every o with Some ms => ms | None => 50%Z end
  ∧ points a = [] ∧ pendingRead a = None ∧ server a = false.
Proof.
  unfold constructor.
  destruct (JS.truthy (opt_method o)) eqn:Et;
    destruct (JS.not_among allowed_methods (opt_method o)) eqn:Ea; simpl;
    try discriminate;
    (destruct (filter_ast pa); [discriminate|]); intros [= <-]; simpl;
    split_and!; auto.
Qed.

(** C5, as the code has it: a method option that is truthy and neither
    [POST] nor [PUT] makes the constructor throw [INVALID-OPTION-VALUE];
    when that check passes, an attached filter expression makes it throw
    [ADAPTER-UNSUPPORTED-FILTER]; a throw leaves no adapter to read from;
    and an adapter that is built listens for [POST] when the method
    option is absent or falsy, and for the given [POST] or [PUT] otherwise. *)
Theorem constructor_validates (o : options) (pa : params) :
  (JS.truthy (opt_method o) = true →
   opt_method o ≠ JS.Str "POST" → opt_method o ≠ JS.Str "PUT" →
   constructor o pa
   = inl {| ce_code := "INVALID-OPTION-VALUE";
            ce_info := [("option", "method"); ("supported", "POST, PUT")] |})
  ∧ (JS.truthy (opt_method o) = false
     ∨ opt_method o = JS.Str "POST" ∨ opt_method o = JS.Str "PUT" →
     is_Some (filter_ast pa) →
     constructor o pa
     = inl {| ce_code := "ADAPTER-UNSUPPORTED-FILTER";
              ce_info := [("proc", "read http_server"); ("filter", "filtering")] |})
  ∧ (JS.truthy (opt_method o) = false
     ∨ opt_method o = JS.Str "POST" ∨ opt_method o = JS.Str "PUT" →
     filter_ast pa = None →
     ∃ a, constructor o pa = inr a
          ∧ method a = (if JS.truthy (opt_method o) then opt_method o else JS.Str "POST")
          ∧ points a = [] ∧ pendingRead a = None)
  ∧ (opt_method o = JS.Undefined → filter_ast pa = None →
     ∃ a, constructor o pa = inr a ∧ method a = JS.Str "POST").
Proof.
  assert (Hgate : JS.truthy (opt_method o) = false
     ∨ opt_method o = JS.Str "POST" ∨ opt_method o = JS.Str "PUT" →
     JS.truthy (opt_method o) && JS.not_among allowed_methods (opt_method o) = false).
  { intros [->|Hm]; [done|]. apply not_among_allowed in Hm. rewrite Hm.
    apply andb_false_r. }
  split_and!.
  - intros Ht Hpost Hput. unfold constructor. rewrite Ht.
    destruct (JS.not_among allowed_methods (opt_method o)) eqn:Ea; [done|].
    apply not_among_allowed in Ea. tauto.
  - intros Hm [f Hf]. unfold constructor. by rewrite (Hgate Hm), Hf.
  - intros Hm Hf. unfold constructor. rewrite (Hgate Hm), Hf.
    eexists. split; [done|]. by simpl.
  - intros Hu Hf. unfold constructor. rewrite Hu, Hf. simpl. by eexists.
Qed.

(** At [-method 'GET'] the first check throws, at [-method 'PUT'] with a
    filter the second does, and without options the adapter is built. *)
Lemma constructor_validates_witness :
  constructor (with_method (JS.Str "GET") no_options) {| filter_ast := None |}
  = inl {| ce_code := "INVALID-OPTION-VALUE";
           ce_info := [("option", "method"); ("supported", "POST, PUT")] |}
  ∧ constructor (with_method (JS.Str "PUT") no_options)
                {| filter_ast := Some (JS.Obj []) |}
    = inl {| ce_code := "ADAPTER-UNSUPPORTED-FILTER";
             ce_info := [("proc", "read http_server"); ("filter", "filtering")] |}
  ∧ ∃ a, constructor no_options {| filter_ast := None |} = inr a
         ∧ method a = JS.Str "POST".
Proof.
  split_and!.
  - apply (constructor_validates (with_method (JS.Str "GET") no_options)
             {| filter_ast := None |}); [reflexivity | discriminate | discriminate].
  - apply (constructor_validates (with_method (JS.Str "PUT") no_options)
             {| filter_ast := Some (JS.Obj []) |});
      [right; right; reflexivity | by eexists].
  - apply (constructor_validates no_options {| filter_ast := None |}); reflexivity.
Defined.

(** C5 as stated fails at [-method ''], a method option that is present
    and is neither [POST] nor [PUT]: nothing is thrown, and the adapter
    listens for [POST]. *)
Lemma constructor_accepts_empty_method :
  let o := with_method (JS.Str EmptyString) no_options in
  opt_method o ≠ JS.Undefined
  ∧ opt_method o ≠ JS.Str "POST" ∧ opt_method o ≠ JS.Str "PUT"
  ∧ ¬ (∃ e, constructor o {| filter_ast := None |} = inl e)
  ∧ ∃ a, constructor o {| filter_ast := None |} = inr a ∧ method a = JS.Str "POST".
Proof.
  simpl. split_and!; try discriminate.
  - intros [e He]. discriminate He.
  - eexists. split; reflexivity.
Qed.

(** ** Reading from the buffer *)

Lemma splice0_some n (pts : list point) :
  splice0 (Some n) pts = (take n pts, drop n pts).
Proof. done. Qed.

(** C3: with points in the buffer, [read] returns at once, without
    creating a promise or touching [pendingRead]; what it returns are the
    first [min limit (length buffer)] points of the buffer in buffer
    order, and the buffer keeps exactly the points after them. *)
Theorem read_returns_buffered_prefix (limit : nat) (w : world) :
  points (self w) ≠ [] →
  ∃ got,
    (read limit w).1 = Now (Points got)
    ∧ got = take limit (points (self w))
    ∧ length got = min limit (length (points (self w)))
    ∧ points (self (read limit w).2) = drop limit (points (self w))
    ∧ got ++ points (self (read limit w).2) = points (self w)
    ∧ reads (read limit w).2 = reads w
    ∧ pendingRead (self (read limit w).2) = pendingRead (self w)
    ∧ pendingReadLimit (self (read limit w).2) = pendingReadLimit (self w).
Proof.
  intros Hne. exists (take limit (points (self w))).
  unfold read. destruct (points (self w)) as [|pt pts] eqn:E; [done|].
  simpl length. replace (0 <? S (length pts))%nat with true by done.
  unfold readResult. rewrite E, splice0_some. simpl.
  split_and!; try done.
  - rewrite length_take. simpl. lia.
  - apply (take_drop limit (pt :: pts)).
Qed.

(** A buffer of three points read with limit two. *)
Lemma read_returns_buffered_prefix_witness :
  let w := boot (set_points [JS.Num 1; JS.Num 2; JS.Num 3] default_adapter) in
  ∃ got,
    (read 2 w).1 = Now (Points got)
    ∧ got = take 2 (points (self w))
    ∧ length got = min 2 (length (points (self w)))
    ∧ points (self (read 2 w).2) = drop 2 (points (self w))
    ∧ got ++ points (self (read 2 w).2) = points (self w)
    ∧ reads (read 2 w).2 = reads w
    ∧ pendingRead (self (read 2 w).2) = pendingRead (self w)
    ∧ pendingReadLimit (self (read 2 w).2) = pendingReadLimit (self w).
Proof.
  intros w. apply (read_returns_buffered_prefix 2 w). discriminate.
Defined.

(** ** Handling a request *)

Section Requests.
Context `{Runtime}.

Lemma warn_leaves ws w :
  self (warn ws w) = self w ∧ now (warn ws w) = now w
  ∧ reads (warn ws w) = reads w ∧ teardowns (warn ws w) = teardowns w
  ∧ on_close (warn ws w) = on_close w ∧ responses (warn ws w) = responses w
  ∧ unsent (warn ws w) = unsent w
  ∧ triggered (warn ws w) = triggered w ++ ((fun e => ("warning", e)) <$> ws).
Proof.
  revert w. induction ws as [|e ws IH]; intros w; simpl.
  - by rewrite app_nil_r.
  - destruct (IH (trigger "warning" e w)) as (-> & -> & -> & -> & -> & -> & -> & ->).
    simpl. by rewrite <- app_assoc.
Qed.

Lemma all_warnings (ws : list JS.error) :
  Forall (fun t : string * JS.error => t.1 = "warning") ((fun e => ("warning", e)) <$> ws).
Proof. induction ws; simpl; by constructor. Qed.

Lemma same_outside_refl w : same_outside w w.
Proof.
  unfold same_outside. split_and!; try done.
  exists []. by rewrite app_nil_r.
Qed.

Lemma same_outside_trans w1 w2 w3 :
  same_outside w1 w2 → same_outside w2 w3 → same_outside w1 w3.
Proof.
  unfold same_outside.
  intros (?&(ws1 & Ht1 & Hw1)&?&?&?&?&?&?&?&?&?&?&?&?)
         (?&(ws2 & Ht2 & Hw2)&?&?&?&?&?&?&?&?&?&?&?&?).
  split_and!; try (etrans; eauto; fail).
  exists (ws1 ++ ws2). rewrite Ht2, Ht1, app_assoc. split; [done|].
  by apply Forall_app.
Qed.

Lemma append_points_same_outside w payload : same_outside w (append_points payload w).
Proof.
  unfold append_points, same_outside. simpl.
  destruct (warn_leaves (timeWarnings (coerce payload) (timeField (self w))) w)
    as (Hs & -> & -> & -> & -> & -> & -> & ->).
  split_and!; try done.
  eexists. split; [done | apply all_warnings].
Qed.

Lemma wake_same_outside w : same_outside w (wake w).
Proof.
  unfold wake.
  destruct (pendingRead (self w)) as [pid|]; [|apply same_outside_refl].
  unfold readResult, same_outside. simpl.
  destruct (splice0 _ _) as [removed rest]. simpl.
  split_and!; try done.
  - exists []. by rewrite app_nil_r.
  - apply length_alter.
Qed.

Lemma on_points_same_outside w payload : same_outside w (on_points w payload).
Proof.
  unfold on_points.
  eapply same_outside_trans; [apply append_points_same_outside | apply wake_same_outside].
Qed.

Lemma ingest_same_outside payloads w : same_outside w (foldl on_points w payloads).
Proof.
  revert w. induction payloads as [|payload payloads IH]; intros w; simpl.
  - apply same_outside_refl.
  - eapply same_outside_trans; [apply on_points_same_outside | apply IH].
Qed.

(** The buffer and the promises after the first half of the callback. *)
Lemma append_points_buffer w payload :
  points (self (append_points payload w))
  = points (self w) ++ parseTime (coerce payload) (timeField (self w))
  ∧ pendingRead (self (append_points payload w)) = pendingRead (self w)
  ∧ pendingReadLimit (self (append_points payload w)) = pendingReadLimit (self w)
  ∧ reads (append_points payload w) = reads w.
Proof.
  unfold append_points. simpl.
  by destruct (warn_leaves (timeWarnings (coerce payload) (timeField (self w))) w)
    as (_ & _ & -> & _).
Qed.

(** The buffer and the promises after the whole callback. *)
Lemma on_points_effect w payload :
  let buffer := points (self w) ++ parseTime (coerce payload) (timeField (self w)) in
  points (self (on_points w payload))
  = match pendingRead (self w) with
    | Some _ => (splice0 (pendingReadLimit (self w)) buffer).2
    | None => buffer
    end
  ∧ reads (on_points w payload)
    = match pendingRead (self w) with
      | Some pid =>
          alter (fulfil (Points (splice0 (pendingReadLimit (self w)) buffer).1)) pid
                (reads w)
      | None => reads w
      end.
Proof.
  intros buffer.
  destruct (append_points_buffer w payload) as (Hb & Hp & Hl & Hr).
  unfold on_points, wake. rewrite Hp.
  destruct (pendingRead (self w)) as [pid|]; [|by rewrite Hb, Hr].
  unfold readResult. rewrite Hb, Hl. fold buffer.
  destruct (splice0 _ buffer) as [removed rest]. simpl.
  change (reads (warn (timeWarnings (coerce payload) (timeField (self w))) w))
    with (reads (append_points payload w)).
  by rewrite Hr.
Qed.

Lemma handleListenError_sends err w :
  legal_status_text (JS.message err) = true →
  responses (handleListenError err w) = responses w ++ [error_response err]
  ∧ triggered (handleListenError err w) = triggered w ++ [("error", err)]
  ∧ unsent (handleListenError err w) = unsent w.
Proof. intros Hl. unfold handleListenError, end_response. simpl. by rewrite Hl. Qed.

Lemma handleListenError_throws err w :
  legal_status_text (JS.message err) = false →
  responses (handleListenError err w) = responses w
  ∧ triggered (handleListenError err w) = triggered w ++ [("error", err)]
  ∧ unsent (handleListenError err w) = unsent w ++ [error_response err].
Proof. intros Hl. unfold handleListenError, end_response. simpl. by rewrite Hl. Qed.

Lemma handleListenError_frame err w :
  self (handleListenError err w) = self w
  ∧ reads (handleListenError err w) = reads w
  ∧ now (handleListenError err w) = now w
  ∧ teardowns (handleListenError err w) = teardowns w
  ∧ on_close (handleListenError err w) = on_close w.
Proof.
  unfold handleListenError, end_response. simpl.
  by destruct (legal_status_text _).
Qed.

(** What handling a request leaves as it was. *)
Lemma handle_request_frame req w :
  now (handle_request req w) = now w
  ∧ teardowns (handle_request req w) = teardowns w
  ∧ on_close (handle_request req w) = on_close w
  ∧ method (self (handle_request req w)) = method (self w)
  ∧ timeField (self (handle_request req w)) = timeField (self w)
  ∧ readEvery (self (handle_request req w)) = readEvery (self w)
  ∧ parserOptions (self (handle_request req w)) = parserOptions (self w)
  ∧ server (self (handle_request req w)) = server (self w)
  ∧ pendingRead (self (handle_request req w)) = pendingRead (self w)
  ∧ pendingReadLimit (self (handle_request req w)) = pendingReadLimit (self w)
  ∧ length (reads (handle_request req w)) = length (reads w).
Proof.
  assert (Hend : ∀ w1 w2,
    same_outside w w1 →
    self w2 = self w1 → reads w2 = reads w1 → now w2 = now w1 →
    teardowns w2 = teardowns w1 → on_close w2 = on_close w1 →
    now w2 = now w ∧ teardowns w2 = teardowns w ∧ on_close w2 = on_close w
    ∧ method (self w2) = method (self w) ∧ timeField (self w2) = timeField (self w)
    ∧ readEvery (self w2) = readEvery (self w)
    ∧ parserOptions (self w2) = parserOptions (self w)
    ∧ server (self w2) = server (self w)
    ∧ pendingRead (self w2) = pendingRead (self w)
    ∧ pendingReadLimit (self w2) = pendingReadLimit (self w)
    ∧ length (reads w2) = length (reads w)).
  { intros w1 w2 Hs -> -> -> -> ->. unfold same_outside in Hs. by destruct_and!. }
  assert (Herr : ∀ err w1, same_outside w w1 →
    now (handleListenError err w1) = now w
    ∧ teardowns (handleListenError err w1) = teardowns w
    ∧ on_close (handleListenError err w1) = on_close w
    ∧ method (self (handleListenError err w1)) = method (self w)
    ∧ timeField (self (handleListenError err w1)) = timeField (self w)
    ∧ readEvery (self (handleListenError err w1)) = readEvery (self w)
    ∧ parserOptions (self (handleListenError err w1)) = parserOptions (self w)
    ∧ server (self (handleListenError err w1)) = server (self w)
    ∧ pendingRead (self (handleListenError err w1)) = pendingRead (self w)
    ∧ pendingReadLimit (self (handleListenError err w1)) = pendingReadLimit (self w)
    ∧ length (reads (handleListenError err w1)) = length (reads w)).
  { intros err w1 Hs.
    destruct (handleListenError_frame err w1) as (? & ? & ? & ? & ?).
    by apply (Hend w1). }
  unfold handle_request.
  destruct (JS.is_str _ _); simpl; [|apply Herr, same_outside_refl].
  destruct (supported _) as [f|]; [|apply Herr, same_outside_refl].
  destruct (failure _) as [err|].
  - apply Herr, ingest_same_outside.
  - apply (Hend (foldl on_points w
                   (emitted (parseStream f (parserOptions (self w)) (req_body req)))));
      [apply ingest_same_outside | done..].
Qed.


End Requests.



(** ** Ingestion *)

Section Ingestion.
Context `{Runtime}.

(** C4: a request with the adapter's method, a [json] or [csv]
    Content-Type and a body the parser accepts is answered 200 with an
    empty body, after the parser callback has run on each payload, and
    triggers nothing but the warnings of [parseTime]. The callback
    turns a payload that is not an array into a one-element sequence,
    has [parseTime] applied to it, and puts the points at the end of the
    buffer; with no pending read the buffer is left so, and a read that
    is still waiting is resolved with the first [limit] points of that
    buffer, which leave it. *)
Theorem request_ingested (req : request) (w : world) (f : string) :
  method (self w) = JS.Str (req_method req) →
  supported (format_of (req_type req)) = Some f →
  failure (parseStream f (parserOptions (self w)) (req_body req)) = None →
  let payloads := emitted (parseStream f (parserOptions (self w)) (req_body req)) in
  handle_request req w
  = respond {| statusCode := 200; statusMessage := None; body := EmptyString |}
            (foldl on_points w payloads)
  ∧ responses (handle_request req w)
    = responses w
      ++ [{| statusCode := 200; statusMessage := None; body := EmptyString |}]
  ∧ unsent (handle_request req w) = unsent w
  ∧ (∃ ws, triggered (handle_request req w) = triggered w ++ ws
           ∧ Forall (fun t => t.1 = "warning") ws)
  ∧ (∀ pt, JS.isArray pt = false → coerce pt = [pt])
  ∧ (∀ pts, coerce (JS.Arr pts) = pts)
  ∧ (∀ w0 payload,
       let buffer := points (self w0) ++ parseTime (coerce payload) (timeField (self w0)) in
       points (self (append_points payload w0)) = buffer
       ∧ triggered (append_points payload w0)
         = triggered w0
           ++ ((fun e => ("warning", e))
                 <$> timeWarnings (coerce payload) (timeField (self w0)))
       ∧ (pendingRead (self w0) = None →
          points (self (on_points w0 payload)) = buffer
          ∧ reads (on_points w0 payload) = reads w0)
       ∧ (∀ pid limit pr,
            pendingRead (self w0) = Some pid →
            pendingReadLimit (self w0) = Some limit →
            reads w0 !! pid = Some pr → timed pr = Pending →
            settled <$> reads (on_points w0 payload) !! pid
            = Some (Some (Points (take limit buffer)))
            ∧ points (self (on_points w0 payload)) = drop limit buffer)).
Proof.
  intros Hm Hf Hok payloads.
  assert (Hreq : handle_request req w
    = respond {| statusCode := 200; statusMessage := None; body := EmptyString |}
              (foldl on_points w payloads)).
  { unfold handle_request. apply is_str_spec in Hm. by rewrite Hm, Hf, Hok. }
  destruct (ingest_same_outside payloads w)
    as (Hres & Htrig & _ & _ & _ & _ & _ & _ & _ & _ & _ & _ & _ & Huns).
  split_and!.
  - done.
  - rewrite Hreq. simpl. by rewrite Hres.
  - rewrite Hreq. simpl. by rewrite Huns.
  - rewrite Hreq. simpl. exact Htrig.
  - by intros [].
  - done.
  - intros w0 payload buffer.
    destruct (append_points_buffer w0 payload) as (Hb & Hp & Hl & Hr).
    split_and!.
    + done.
    + unfold append_points. simpl.
      by destruct (warn_leaves (timeWarnings (coerce payload) (timeField (self w0))) w0)
        as (_ & _ & _ & _ & _ & _ & _ & ->).
    + intros Hnone. unfold on_points, wake. rewrite Hp, Hnone. by rewrite Hb, Hr.
    + intros pid limit pr Hpid Hlimit Hpr Hpending.
      unfold on_points, wake. rewrite Hp, Hl, Hpid, Hlimit.
      unfold readResult. rewrite Hb. simpl. fold buffer. split; [|done].
      change (reads (warn (timeWarnings (coerce payload) (timeField (self w0))) w0))
        with (reads (append_points payload w0)).
      rewrite list_lookup_alter_eq, Hr, Hpr.
      simpl. unfold settled, fulfil. by rewrite Hpending.
Qed.

End Ingestion.

(** A [POST] of a JSON array of two points while a read of limit one is
    waiting. *)
Lemma request_ingested_witness :
  let req := post_json {| emitted := [JS.Arr [JS.Num 1; JS.Num 2]]; failure := None |} in
  let w := (read 1 (boot default_adapter)).2 in
  responses (handle_request req w)
  = responses w ++ [{| statusCode := 200; statusMessage := None; body := EmptyString |}].
Proof.
  intros req w.
  apply (@request_ingested scripted req w "json"); reflexivity.
Defined.

(** ** Read promises over a run *)

Section Promises.
Context `{Runtime}.

Lemma follows_refl pr : follows pr pr.
Proof. by split. Qed.

Lemma follows_trans pr1 pr2 pr3 : follows pr1 pr2 → follows pr2 pr3 → follows pr1 pr3.
Proof.
  intros [Hd12 Hs12] [Hd23 Hs23]. split; [congruence|].
  intros Hp. specialize (Hs12 Hp). subst pr2. auto.
Qed.

Lemma fulfil_follows r pr : follows pr (fulfil r pr).
Proof.
  unfold follows, fulfil. destruct (timed pr) eqn:E; simpl; split; auto; congruence.
Qed.

Lemma expire_follows t pr : follows pr (expire t pr).
Proof.
  unfold follows, expire. destruct (timed pr) eqn:E; simpl; auto.
  destruct (deadline pr <=? t)%Z; simpl; split; auto; congruence.
Qed.

Lemma on_points_promise w payload pid pr :
  reads w !! pid = Some pr →
  ∃ pr', reads (on_points w payload) !! pid = Some pr' ∧ follows pr pr'.
Proof.
  intros Hpr. destruct (on_points_effect w payload) as [_ ->].
  destruct (pendingRead (self w)) as [pid'|]; [|eauto using follows_refl].
  destruct (decide (pid' = pid)) as [->|Hne].
  - rewrite list_lookup_alter_eq, Hpr. simpl. eauto using fulfil_follows.
  - rewrite list_lookup_alter_ne by done. eauto using follows_refl.
Qed.

Lemma ingest_promise payloads w pid pr :
  reads w !! pid = Some pr →
  ∃ pr', reads (foldl on_points w payloads) !! pid = Some pr' ∧ follows pr pr'.
Proof.
  revert w pr. induction payloads as [|payload payloads IH]; intros w pr Hpr; simpl.
  - eauto using follows_refl.
  - destruct (on_points_promise w payload pid pr Hpr) as (pr1 & H1 & F1).
    destruct (IH _ _ H1) as (pr2 & H2 & F2). eauto using follows_trans.
Qed.

Lemma handle_request_reads req w :
  reads (handle_request req w) = reads w
  ∨ ∃ f, JS.is_str (req_method req) (method (self w)) = true
         ∧ supported (format_of (req_type req)) = Some f
         ∧ reads (handle_request req w)
           = reads (foldl on_points w
                      (emitted (parseStream f (parserOptions (self w)) (req_body req)))).
Proof.
  unfold handle_request.
  destruct (JS.is_str _ _); simpl;
    [|left; by destruct (handleListenError_frame
                          (runtimeError "INVALID-HTTP-METHOD" [("types", "POST")]) w)
              as (_ & -> & _)].
  destruct (supported _) as [f|];
    [|left; by destruct (handleListenError_frame
                          (runtimeError "INVALID-TYPE" [("types", "csv, json")]) w)
              as (_ & -> & _)].
  right. exists f. split_and!; try done.
  destruct (failure _) as [err|]; [|done].
  by destruct (handleListenError_frame err
    (foldl on_points w (emitted (parseStream f (parserOptions (self w)) (req_body req)))))
    as (_ & -> & _).
Qed.

Lemma step_promise w e pid pr :
  reads w !! pid = Some pr →
  ∃ pr', reads (step w e) !! pid = Some pr' ∧ follows pr pr'.
Proof.
  intros Hpr. destruct e as [|req|limit|dt| |]; simpl;
    try (exists pr; split; [done | apply follows_refl]).
  - destruct (handle_request_reads req w) as [->|(f & _ & _ & ->)];
      [eauto using follows_refl | by apply ingest_promise].
  - unfold read. destruct (0 <? _)%nat.
    + unfold readResult. destruct (splice0 _ _). simpl. eauto using follows_refl.
    + simpl. exists pr. split; [|apply follows_refl].
      by apply lookup_app_l_Some.
  - rewrite list_lookup_fmap, Hpr. simpl. eauto using expire_follows.
  - exists pr. split; [|apply follows_refl]. unfold teardown. by destruct (server _).
Qed.

Lemma run_promise es w pid pr :
  reads w !! pid = Some pr →
  ∃ pr', reads (run w es) !! pid = Some pr' ∧ follows pr pr'.
Proof.
  revert w pr. induction es as [|e es IH]; intros w pr Hpr; simpl.
  - eauto using follows_refl.
  - destruct (step_promise w e pid pr Hpr) as (pr1 & H1 & F1).
    destruct (IH _ _ H1) as (pr2 & H2 & F2). eauto using follows_trans.
Qed.

Lemma run_app w es es' : run w (es ++ es') = run (run w es) es'.
Proof. apply foldl_app. Qed.

(** The fields of the adapter that requests and timers read. *)
Lemma step_fixed w e :
  method (self (step w e)) = method (self w)
  ∧ parserOptions (self (step w e)) = parserOptions (self w)
  ∧ readEvery (self (step w e)) = readEvery (self w).
Proof.
  destruct e as [|req|limit|dt| |]; simpl; try done.
  - pose proof (handle_request_frame req w). by destruct_and!.
  - unfold read. destruct (0 <? _)%nat; [|done].
    unfold readResult. by destruct (splice0 _ _).
  - unfold teardown. by destruct (server _).
Qed.



End Promises.

(** ** A read on an empty buffer *)

Section Timeout.
Context `{Runtime}.



Lemma read_suspends limit w :
  points (self w) = [] →
  read limit w
  = (Later (length (reads w)),
     with_reads
       (reads w ++ [{| deadline := now w + readEvery (self w); timed := Pending |}])
       (with_self (set_pending (length (reads w)) limit (self w)) w)).
Proof. intros Hb. unfold read. by rewrite Hb. Qed.



End Timeout.



(** ** Teardown *)

Section Closing.
Context `{Runtime}.

Lemma handle_request_close req w :
  teardowns (handle_request req w) = teardowns w
  ∧ on_close (handle_request req w) = on_close w.
Proof. pose proof (handle_request_frame req w). by destruct_and!. Qed.

(** Before the server closes, a waiting teardown keeps waiting. *)
Lemma step_keeps_waiting w e tid :
  e ≠ Closed →
  teardowns w !! tid = Some false → tid ∈ on_close w →
  teardowns (step w e) !! tid = Some false ∧ tid ∈ on_close (step w e).
Proof.
  intros Hne Hts Hcb. destruct e as [|req|limit|dt| |]; simpl; try done.
  - by destruct (handle_request_close req w) as [-> ->].
  - unfold read. destruct (0 <? _)%nat; [|done].
    unfold readResult. by destruct (splice0 _ _).
  - unfold teardown. destruct (server _); simpl.
    + split; [by apply lookup_app_l_Some | apply elem_of_app; by left].
    + split; [by apply lookup_app_l_Some | done].
Qed.

Lemma run_keeps_waiting es w tid :
  Closed ∉ es →
  teardowns w !! tid = Some false → tid ∈ on_close w →
  teardowns (run w es) !! tid = Some false ∧ tid ∈ on_close (run w es).
Proof.
  revert w. induction es as [|e es IH]; intros w Hno Hts Hcb; [done|].
  change (run w (e :: es)) with (run (step w e) es).
  apply not_elem_of_cons in Hno as [Hne Hno].
  destruct (step_keeps_waiting w e tid) as [Hts' Hcb']; auto.
Qed.

Lemma callbacks_resolve (cbs : list nat) (ts : list bool) tid :
  (tid < length ts)%nat →
  (tid ∈ cbs ∨ ts !! tid = Some true) →
  foldl (fun ts tid => <[tid := true]> ts) ts cbs !! tid = Some true.
Proof.
  revert ts. induction cbs as [|cb cbs IH]; intros ts Hlen Hin; simpl.
  - destruct Hin as [Hin|Hin]; [by apply elem_of_nil in Hin | done].
  - apply IH; [by rewrite length_insert|].
    destruct Hin as [Hin|Hin].
    + apply elem_of_cons in Hin as [->|Hin]; [|by left].
      right. by apply list_lookup_insert_eq.
    + right. destruct (decide (cb = tid)) as [->|Hne].
      * by apply list_lookup_insert_eq.
      * by rewrite list_lookup_insert_ne.
Qed.

(** A resolved teardown stays resolved. *)
Lemma step_keeps_resolved w e tid :
  teardowns w !! tid = Some true → teardowns (step w e) !! tid = Some true.
Proof.
  intros Hts. destruct e as [|req|limit|dt| |]; simpl; try done.
  - by destruct (handle_request_close req w) as [-> _].
  - unfold read. destruct (0 <? _)%nat; [|done].
    unfold readResult. by destruct (splice0 _ _).
  - unfold teardown. destruct (server _); simpl; by apply lookup_app_l_Some.
  - apply callbacks_resolve; [by eapply lookup_lt_Some | by right].
Qed.

Lemma run_keeps_resolved es w tid :
  teardowns w !! tid = Some true → teardowns (run w es) !! tid = Some true.
Proof.
  revert w. induction es as [|e es IH]; intros w Hts; [done|].
  change (run w (e :: es)) with (run (step w e) es).
  by apply IH, step_keeps_resolved.
Qed.

(** C9: [teardown] returns a promise. On an adapter whose server was
    never started the promise is resolved at once. On a started one its
    [resolve] is handed to [server.close]: the promise is pending after
    the call, stays pending whatever happens until the server has closed,
    is resolved when the close callback runs, and stays resolved. *)
Theorem teardown_resolves_on_close (w : world) :
  let tid := (teardown w).1 in
  let w1 := (teardown w).2 in
  (server (self w) = false → teardowns w1 !! tid = Some true ∧ on_close w1 = on_close w)
  ∧ (server (self w) = true →
     teardowns w1 !! tid = Some false
     ∧ on_close w1 = on_close w ++ [tid]
     ∧ ∀ es, Closed ∉ es →
         teardowns (run w1 es) !! tid = Some false
         ∧ ∀ es', teardowns (run w1 (es ++ [Closed] ++ es')) !! tid = Some true).
Proof.
  intros tid w1. unfold tid, w1, teardown. split.
  - intros ->. simpl. split; [|done]. by apply list_lookup_middle.
  - intros ->. simpl.
    set (w' := World _ _ _ _ _ _ _ _).
    assert (Hts : teardowns w' !! length (teardowns w) = Some false)
      by (by apply list_lookup_middle).
    assert (Hcb : length (teardowns w) ∈ on_close w')
      by (simpl; apply elem_of_app; right; by apply list_elem_of_singleton).
    split_and!; try done.
    intros es Hno.
    destruct (run_keeps_waiting es w' _ Hno Hts Hcb) as [Hts' Hcb'].
    split; [done|]. intros es'.
    rewrite run_app.
    apply (run_keeps_resolved es' (closed (run w' es))). simpl.
    apply callbacks_resolve; [by eapply lookup_lt_Some | by left].
Qed.

End Closing.

(** A started adapter torn down while a read is waiting, and one that
    was never started. *)
Lemma teardown_resolves_on_close_witness :
  let w := start (boot default_adapter) in
  teardowns (teardown w).2 !! 0%nat = Some false
  ∧ teardowns (@run scripted (teardown w).2 [Read 5; Elapse 50; Closed]) !! 0%nat
    = Some true
  ∧ teardowns (teardown (boot default_adapter)).2 !! 0%nat = Some true.
Proof.
  intros w.
  destruct (@teardown_resolves_on_close scripted w) as [_ Hon].
  destruct (Hon eq_refl) as (Hpending & _ & Hrun).
  destruct (Hrun [Read 5; Elapse 50]) as [_ Hclosed].
  { intros Hin. repeat (apply elem_of_cons in Hin as [Hin|Hin]; [discriminate|]).
    by apply elem_of_nil in Hin. }
  destruct (@teardown_resolves_on_close scripted (boot default_adapter)) as [Hoff _].
  split_and!; [exact Hpending | exact (Hclosed []) | exact (proj1 (Hoff eq_refl))].
Defined.

(** ** Points lost to a read that is no longer waiting *)

Section Stale.
Context `{Runtime}.

(** When [pendingRead] names a promise that is already settled, the
    parser callback still takes the first [limit] points out of the
    buffer, and no promise changes. *)
Lemma settled_read_takes_points w payload pid limit pr :
  pendingRead (self w) = Some pid →
  pendingReadLimit (self w) = Some limit →
  reads w !! pid = Some pr → timed pr ≠ Pending →
  points (self (on_points w payload))
  = drop limit (points (self w) ++ parseTime (coerce payload) (timeField (self w)))
  ∧ reads (on_points w payload) = reads w.
Proof.
  intros Hpid Hlimit Hpr Hsettled.
  destruct (on_points_effect w payload) as [-> ->].
  rewrite Hpid, Hlimit. simpl. split; [done|].
  apply list_eq. intros i. destruct (decide (i = pid)) as [->|Hne].
  - rewrite list_lookup_alter_eq, Hpr. simpl. f_equal.
    by apply (fulfil_follows _ pr).
  - by rewrite list_lookup_alter_ne.
Qed.

End Stale.

(** C10 at two concrete runs. In the first a read of limit 10 times out
    after 50 ms, and then a [POST] of two points arrives while no read is
    waiting. In the second a read of limit 1 is resolved by a first
    [POST], and a second [POST] arrives while no read is waiting. Both
    times [pendingRead] still holds the [resolve] of the earlier read:
    the callback takes points out of the buffer for it, the settled
    promise ignores them, and the next read does not get them. *)
Theorem stale_pending_read_drops_points :
  let one := JS.Obj [("v", JS.Num 1)] in
  let two := JS.Obj [("v", JS.Num 2)] in
  let three := JS.Obj [("v", JS.Num 3)] in
  let post pts := Incoming (post_json {| emitted := [JS.Arr pts]; failure := None |}) in
  let w1 := @run scripted (boot default_adapter) [Read 10; Elapse 50] in
  let w1' := @step scripted w1 (post [one; two]) in
  let w2 := @run scripted (boot default_adapter) [Read 1; post [one; two]] in
  let w2' := @step scripted w2 (post [three]) in
  (settled <$> reads w1 !! 0%nat = Some (Some Nothing)
   ∧ points (self w1) = []
   ∧ statusCode <$> reply w1' = Some 200%Z
   ∧ points (self w1') = []
   ∧ reads w1' = reads w1
   ∧ (read 10 w1').1 = Later 1)
  ∧ (settled <$> reads w2 !! 0%nat = Some (Some (Points [one]))
     ∧ points (self w2) = [two]
     ∧ statusCode <$> reply w2' = Some 200%Z
     ∧ points (self w2') = [three]
     ∧ reads w2' = reads w2
     ∧ (read 10 w2').1 = Now (Points [three])).
Proof. vm_compute. by split_and!. Qed.

(** ** Errors and the outcome of a run *)

Import Cli.

Lemma on_signal_flagged st sg :
  had_an_error st = true →
  outcome st = Cli.Pending ∨ outcome st = Settled (Rejects terminated_with_errors) →
  had_an_error (on_signal st sg) = true
  ∧ (outcome (on_signal st sg) = Cli.Pending
     ∨ outcome (on_signal st sg) = Settled (Rejects terminated_with_errors)).
Proof.
  intros Hflag Hout.
  destruct sg as [msg err|msg|msg err|msg|s|s]; simpl;
    unfold advance, settle_done, settle_views;
    repeat (case_match; simpl in *; subst; try done);
    rewrite ?Hflag; auto; destruct Hout; try congruence; auto.
Qed.

Lemma signals_flagged sgs st :
  had_an_error st = true →
  outcome st = Cli.Pending ∨ outcome st = Settled (Rejects terminated_with_errors) →
  had_an_error (foldl on_signal st sgs) = true
  ∧ (outcome (foldl on_signal st sgs) = Cli.Pending
     ∨ outcome (foldl on_signal st sgs) = Settled (Rejects terminated_with_errors)).
Proof.
  revert st. induction sgs as [|sg sgs IH]; intros st Hflag Hout; [done|].
  simpl. destruct (on_signal_flagged st sg Hflag Hout). by apply IH.
Qed.

(** While the promise of the run is pending, the listeners are attached
    and the chain is waiting for one of the two promises. *)
Lemma on_signal_coherent st sg :
  (outcome st = Cli.Pending →
   listening st = true
   ∧ (program_done st = Cli.Pending
      ∨ program_done st = Settled Resolves ∧ views_done st = Cli.Pending)) →
  outcome (on_signal st sg) = Cli.Pending →
  listening (on_signal st sg) = true
  ∧ (program_done (on_signal st sg) = Cli.Pending
     ∨ program_done (on_signal st sg) = Settled Resolves
       ∧ views_done (on_signal st sg) = Cli.Pending).
Proof.
  intros Hco.
  destruct sg as [msg err|msg|msg err|msg|s|s]; simpl;
    unfold advance, settle_done, settle_views;
    repeat (case_match; simpl in *; subst; try done);
    intros Hp; try (specialize (Hco Hp)); try (specialize (Hco eq_refl));
    destruct_and?; destruct_or?; destruct_and?; simplify_eq; auto; congruence.
Qed.

Lemma signals_coherent sgs st :
  (outcome st = Cli.Pending →
   listening st = true
   ∧ (program_done st = Cli.Pending
      ∨ program_done st = Settled Resolves ∧ views_done st = Cli.Pending)) →
  outcome (foldl on_signal st sgs) = Cli.Pending →
  listening (foldl on_signal st sgs) = true
  ∧ (program_done (foldl on_signal st sgs) = Cli.Pending
     ∨ program_done (foldl on_signal st sgs) = Settled Resolves
       ∧ views_done (foldl on_signal st sgs) = Cli.Pending).
Proof.
  revert st. induction sgs as [|sg sgs IH]; intros st Hco; [done|].
  simpl. apply IH. by apply on_signal_coherent.
Qed.

Lemma signals_handled sgs st err :
  err ∈ handled st → err ∈ handled (foldl on_signal st sgs).
Proof.
  revert st. induction sgs as [|sg sgs IH]; intros st Hin; [done|].
  simpl. apply IH.
  destruct sg as [msg e|msg|msg e|msg|s|s]; simpl;
    unfold advance, settle_done, settle_views;
    repeat (case_match; simpl in *; subst; try done);
    try done; apply elem_of_app; by left.
Qed.

(** An [error] event that arrives while the run is going on. *)
Lemma observed_error_fails_run before msg err after :
  outcome (perform_run before) = Cli.Pending →
  let final := perform_run (before ++ [ProgramError msg err] ++ after) in
  had_an_error final = true
  ∧ err ∈ handled final
  ∧ (outcome final = Cli.Pending
     ∨ outcome final = Settled (Rejects terminated_with_errors))
  ∧ (program_done final = Settled Resolves → views_done final = Settled Resolves →
     outcome final = Settled (Rejects terminated_with_errors)).
Proof.
  intros Hrun final.
  assert (Hinit : outcome activated = Cli.Pending →
    listening activated = true
    ∧ (program_done activated = Cli.Pending
       ∨ program_done activated = Settled Resolves ∧ views_done activated = Cli.Pending))
    by (simpl; auto).
  destruct (signals_coherent before activated Hinit Hrun) as [Hlisten _].
  set (st := on_signal (perform_run before) (ProgramError msg err)).
  assert (Hfinal : final = foldl on_signal st after).
  { unfold final, perform_run. by rewrite foldl_app. }
  assert (Hst : st = on_error err (perform_run before)).
  { unfold st. simpl. unfold perform_run in *. by rewrite Hlisten. }
  destruct (signals_flagged after st) as [Hflag Hout].
  { by rewrite Hst. }
  { left. by rewrite Hst. }
  rewrite <- Hfinal in Hflag, Hout.
  split_and!; try done.
  - rewrite Hfinal. apply signals_handled. rewrite Hst. simpl.
    apply elem_of_app. right. by apply list_elem_of_singleton.
  - intros Hd Hv. destruct Hout as [Hp|]; [|done].
    destruct (signals_coherent (before ++ [ProgramError msg err] ++ after)
                activated Hinit Hp) as [_ [Hc|[_ Hc]]];
      unfold final, perform_run in *; congruence.
Qed.

Section Failures.
Context `{Runtime}.

(** A request ends in one of two ways: answered 200 with no error
    event, or through [handleListenError] with one error event, after
    which the response goes out if its status text is legal and
    [res.end()] throws if it is not. Before that, only warnings. *)
Lemma handle_request_outcome req w :
  (∃ ws, triggered (handle_request req w) = triggered w ++ ws
         ∧ Forall (fun t => t.1 = "warning") ws
         ∧ responses (handle_request req w)
           = responses w
             ++ [{| statusCode := 200; statusMessage := None; body := EmptyString |}]
         ∧ unsent (handle_request req w) = unsent w)
  ∨ ∃ err ws,
      triggered (handle_request req w) = triggered w ++ ws ++ [("error", err)]
      ∧ Forall (fun t => t.1 = "warning") ws
      ∧ (if legal_status_text (JS.message err)
         then responses (handle_request req w) = responses w ++ [error_response err]
              ∧ unsent (handle_request req w) = unsent w
         else responses (handle_request req w) = responses w
              ∧ unsent (handle_request req w) = unsent w ++ [error_response err]).
Proof.
  assert (Herr : ∀ err w1, same_outside w w1 →
    ∃ ws,
      triggered (handleListenError err w1) = triggered w ++ ws ++ [("error", err)]
      ∧ Forall (fun t => t.1 = "warning") ws
      ∧ (if legal_status_text (JS.message err)
         then responses (handleListenError err w1) = responses w ++ [error_response err]
              ∧ unsent (handleListenError err w1) = unsent w
         else responses (handleListenError err w1) = responses w
              ∧ unsent (handleListenError err w1) = unsent w ++ [error_response err])).
  { intros err w1 Hs. unfold same_outside in Hs.
    destruct Hs as (Hres & (ws & Htrig & Hws) & _ & _ & _ & _ & _ & _ & _ & _ & _ & _ & _ & Huns).
    exists ws. split_and!; [|done|].
    - destruct (legal_status_text (JS.message err)) eqn:Hl.
      + destruct (handleListenError_sends err w1 Hl) as (_ & -> & _).
        by rewrite Htrig, app_assoc.
      + destruct (handleListenError_throws err w1 Hl) as (_ & -> & _).
        by rewrite Htrig, app_assoc.
    - destruct (legal_status_text (JS.message err)) eqn:Hl.
      + destruct (handleListenError_sends err w1 Hl) as (-> & _ & ->).
        by rewrite Hres, Huns.
      + destruct (handleListenError_throws err w1 Hl) as (-> & _ & ->).
        by rewrite Hres, Huns. }
  unfold handle_request.
  destruct (JS.is_str _ _); cbn [negb];
    [|right; eexists; apply Herr, same_outside_refl].
  destruct (supported _) as [f|];
    [|right; eexists; apply Herr, same_outside_refl].
  destruct (failure _) as [err|].
  - right. eexists. apply Herr, ingest_same_outside.
  - left.
    destruct (ingest_same_outside
      (emitted (parseStream f (parserOptions (self w)) (req_body req))) w)
      as (Hres & (ws & Htrig & Hws) & _ & _ & _ & _ & _ & _ & _ & _ & _ & _ & _ & Huns).
    exists ws. simpl. by rewrite Hres, Htrig, Huns.
Qed.


End Failures.



(** ** The buffer over a run *)

Import Traffic.

Section Buffer.
Context `{Runtime}.

Lemma step_time_field w e : timeField (self (step w e)) = timeField (self w).
Proof.
  destruct e as [|req|limit|dt| |]; simpl; try done.
  - pose proof (handle_request_frame req w). by destruct_and!.
  - unfold read. destruct (0 <? _)%nat; [|done].
    unfold readResult. by destruct (splice0 _ _).
  - unfold teardown. by destruct (server _).
Qed.

Lemma arrivals_config a a' e :
  method a' = method a → parserOptions a' = parserOptions a →
  timeField a' = timeField a →
  arrivals a' e = arrivals a e.
Proof. intros Hm Ho Ht. destruct e; simpl; try done. by rewrite Hm, Ho, Ht. Qed.

Lemma on_points_buffer w payload :
  points (self (on_points w payload))
  `suffix_of` points (self w) ++ parseTime (coerce payload) (timeField (self w)).
Proof.
  destruct (on_points_effect w payload) as [-> _].
  destruct (pendingRead (self w)); [|done].
  destruct (pendingReadLimit (self w)); simpl; [apply suffix_drop | done].
Qed.

Lemma ingest_buffer payloads w :
  points (self (foldl on_points w payloads))
  `suffix_of` points (self w)
              ++ (payload ← payloads; parseTime (coerce payload) (timeField (self w))).
Proof.
  revert w. induction payloads as [|payload payloads IH]; intros w; simpl.
  - by rewrite app_nil_r.
  - etrans; [apply IH|].
    destruct (on_points_same_outside w payload) as (_&_&_&_&_&_&->&_).
    rewrite app_assoc. apply suffix_app, on_points_buffer.
Qed.

Lemma handle_request_self req w :
  self (handle_request req w) = self w
  ∧ arrivals (self w) (Incoming req) = []
  ∨ ∃ f, JS.is_str (req_method req) (method (self w)) = true
         ∧ supported (format_of (req_type req)) = Some f
         ∧ self (handle_request req w)
           = self (foldl on_points w
                     (emitted (parseStream f (parserOptions (self w)) (req_body req)))).
Proof.
  unfold handle_request, arrivals.
  destruct (JS.is_str _ _); simpl;
    [|left; by destruct (handleListenError_frame
                          (runtimeError "INVALID-HTTP-METHOD" [("types", "POST")]) w)
              as (-> & _)].
  destruct (supported _) as [f|];
    [|left; by destruct (handleListenError_frame
                          (runtimeError "INVALID-TYPE" [("types", "csv, json")]) w)
              as (-> & _)].
  right. exists f. split_and!; try done.
  destruct (failure _) as [err|]; [|done].
  by destruct (handleListenError_frame err
    (foldl on_points w (emitted (parseStream f (parserOptions (self w)) (req_body req)))))
    as (-> & _).
Qed.

Lemma step_buffer w e :
  points (self (step w e)) `suffix_of` points (self w) ++ arrivals (self w) e.
Proof.
  destruct e as [|req|limit|dt| |];
    [| change (step w (Incoming req)) with (handle_request req w);
       destruct (handle_request_self req w) as [[-> ->]|(f & Hm & Hf & ->)];
       [by rewrite app_nil_r
       |unfold arrivals; rewrite Hm, Hf; apply ingest_buffer] | | | |];
    simpl; rewrite ?app_nil_r; try done.
  - unfold read. destruct (0 <? _)%nat; [|done].
    unfold readResult. simpl. apply suffix_drop.
  - unfold teardown. by destruct (server _).
Qed.

(** X1: The buffer is a queue: over any run it is an end piece of what it
    held at the start followed by everything the requests brought, in
    the order of arrival. Points leave at the front only, come in at the
    back only, and are never reordered or duplicated. *)
Theorem buffer_is_fifo (w : world) (es : list event) :
  points (self (run w es)) `suffix_of` points (self w) ++ (es ≫= arrivals (self w)).
Proof.
  revert w. induction es as [|e es IH]; intros w.
  - simpl. by rewrite app_nil_r.
  - change (run w (e :: es)) with (run (step w e) es).
    etrans; [apply IH|].
    destruct (step_fixed w e) as (Hm & Ho & _).
    pose proof (step_time_field w e) as Ht.
    replace (es ≫= arrivals (self (step w e))) with (es ≫= arrivals (self w)).
    + change ((e :: es) ≫= arrivals (self w))
        with (arrivals (self w) e ++ (es ≫= arrivals (self w))).
      rewrite app_assoc. apply suffix_app, step_buffer.
    + clear IH. induction es as [|e' es IH']; [done|].
      change ((e' :: es) ≫= ?f) with (f e' ++ (es ≫= f)).
      by rewrite IH', (arrivals_config (self w) (self (step w e)) e').
Qed.

Lemma ingest_unasked payloads w :
  pendingRead (self w) = None →
  points (self (foldl on_points w payloads))
  = points (self w)
    ++ (payload ← payloads; parseTime (coerce payload) (timeField (self w)))
  ∧ reads (foldl on_points w payloads) = reads w.
Proof.
  revert w. induction payloads as [|payload payloads IH]; intros w Hnone; simpl.
  - by rewrite app_nil_r.
  - destruct (on_points_effect w payload) as [Hb Hr]. rewrite Hnone in Hb, Hr.
    destruct (on_points_same_outside w payload)
      as (_&_&_&_&_&_&Ht&_&_&_&Hp&_).
    destruct (IH (on_points w payload)) as [-> ->].
    + by rewrite Hp.
    + by rewrite Hb, Hr, Ht, app_assoc.
Qed.

Lemma request_appends_unasked req w :
  pendingRead (self w) = None →
  points (self (handle_request req w))
  = points (self w) ++ arrivals (self w) (Incoming req)
  ∧ reads (handle_request req w) = reads w.
Proof.
  intros Hnone.
  destruct (handle_request_self req w) as [[-> ->]|(f & Hm & Hf & Hself)].
  - rewrite app_nil_r. split; [done|].
    destruct (handle_request_reads req w) as [->|(f & Hm & Hf & ->)]; [done|].
    simpl in *. by destruct (ingest_unasked
      (emitted (parseStream f (parserOptions (self w)) (req_body req))) w Hnone).
  - rewrite Hself. simpl. rewrite Hm, Hf.
    destruct (ingest_unasked
      (emitted (parseStream f (parserOptions (self w)) (req_body req))) w Hnone)
      as [-> Hreads].
    split; [done|].
    destruct (handle_request_reads req w) as [->|(f' & _ & Hf' & ->)]; [done|].
    rewrite Hf in Hf'. injection Hf' as <-. done.
Qed.

(** X2: On an adapter that no read has ever been suspended on, a request
    that gets to the parser leaves in the buffer every point of every
    payload the parser emitted, also when the parser fails afterwards:
    the error is triggered and the request is not answered 200, with an
    error status and the message of the error if that can be sent as a
    status text and with nothing if it cannot, and what was parsed before
    the failure stays. *)
Theorem failed_request_keeps_parsed_points (req : request) (w : world) :
  pendingRead (self w) = None →
  points (self (handle_request req w))
  = points (self w) ++ arrivals (self w) (Incoming req)
  ∧ reads (handle_request req w) = reads w
  ∧ (∀ f err,
       method (self w) = JS.Str (req_method req) →
       supported (format_of (req_type req)) = Some f →
       failure (parseStream f (parserOptions (self w)) (req_body req)) = Some err →
       points (self (handle_request req w))
       = points (self w)
         ++ (payload ← emitted (parseStream f (parserOptions (self w)) (req_body req));
             parseTime (coerce payload) (timeField (self w)))
       ∧ last (triggered (handle_request req w)) = Some ("error", err)
       ∧ (legal_status_text (JS.message err) = true →
          ∃ r, reply (handle_request req w) = Some r
               ∧ refused r = true
               ∧ statusMessage r = Some (JS.message err))
       ∧ (legal_status_text (JS.message err) = false →
          responses (handle_request req w) = responses w)).
Proof.
  intros Hnone.
  destruct (request_appends_unasked req w Hnone) as [Hpts Hreads].
  split_and!; try done.
  intros f err Hm Hf Hfail.
  apply is_str_spec in Hm.
  assert (Hreq : handle_request req w
            = handleListenError err
                (foldl on_points w
                   (emitted (parseStream f (parserOptions (self w)) (req_body req))))).
  { unfold handle_request. by rewrite Hm, Hf, Hfail. }
  set (w1 := foldl on_points w _) in *.
  destruct (ingest_same_outside
    (emitted (parseStream f (parserOptions (self w)) (req_body req))) w)
    as (Hres & _). fold w1 in Hres.
  split_and!.
  - rewrite Hpts. unfold arrivals. by rewrite Hm, Hf.
  - rewrite Hreq. destruct (legal_status_text (JS.message err)) eqn:Hl.
    + destruct (handleListenError_sends err w1 Hl) as (_ & -> & _). apply last_snoc.
    + destruct (handleListenError_throws err w1 Hl) as (_ & -> & _). apply last_snoc.
  - intros Hl. rewrite Hreq. unfold reply.
    destruct (handleListenError_sends err w1 Hl) as (-> & _).
    rewrite last_snoc. eexists. split_and!; try done.
    unfold refused, error_response. simpl. by repeat case_match.
  - intros Hl. rewrite Hreq.
    destruct (handleListenError_throws err w1 Hl) as (-> & _). done.
Qed.

End Buffer.

(** ** Posting and reading back *)

Section RoundTrip.
Context `{Runtime}.

(** X3: What a request puts into an empty buffer nobody has waited on is
    what the next read returns, up to its limit, and the rest stays for
    the reads after it. *)
Theorem posted_points_are_read_back (req : request) (w : world) (limit : nat) :
  pendingRead (self w) = None →
  points (self w) = [] →
  arrivals (self w) (Incoming req) ≠ [] →
  let pts := arrivals (self w) (Incoming req) in
  let w' := handle_request req w in
  (read limit w').1 = Now (Points (take limit pts))
  ∧ points (self (read limit w').2) = drop limit pts
  ∧ ((length pts ≤ limit)%nat →
     (read limit w').1 = Now (Points pts) ∧ points (self (read limit w').2) = []).
Proof.
  intros Hnone Hempty Hsome pts w'.
  destruct (request_appends_unasked req w Hnone) as (Hpts & _).
  rewrite Hempty, app_nil_l in Hpts. fold pts w' in Hpts.
  assert (Hne : pts ≠ []) by exact Hsome.
  clearbody pts w'.
  assert (Hread : read limit w'
                  = (Now (Points (take limit pts)),
                     with_self (set_points (drop limit pts) (self w')) w')).
  { unfold read, readResult. rewrite Hpts.
    destruct pts as [|pt pts']; [done|]. done. }
  rewrite Hread. simpl. split_and!; try done.
  intros Hlen. by rewrite take_ge, drop_ge.
Qed.

Lemma read_each_serves limits w :
  served limits (length (points (self w))) = true →
  ∃ chunks,
    (read_each limits w).1 = (fun pts => Now (Points pts)) <$> chunks
    ∧ concat chunks = take (sum_list limits) (points (self w))
    ∧ points (self (read_each limits w).2) = drop (sum_list limits) (points (self w))
    ∧ reads (read_each limits w).2 = reads w
    ∧ pendingRead (self (read_each limits w).2) = pendingRead (self w).
Proof.
  revert w. induction limits as [|limit limits IH]; intros w Hs.
  - exists []. simpl. by rewrite take_0, drop_0.
  - simpl in Hs. apply andb_true_iff in Hs as [Hn Hs].
    set (w1 := with_self (set_points (drop limit (points (self w))) (self w)) w).
    assert (Hread : read limit w = (Now (Points (take limit (points (self w)))), w1))
      by (unfold read; by rewrite Hn).
    cbn [read_each]. rewrite Hread.
    specialize (IH w1). simpl in IH. rewrite length_drop in IH.
    destruct (IH Hs) as (chunks & Hr & Hc & Hp & Hreads & Hpending).
    destruct (read_each limits w1) as [rs w2]. simpl in *.
    exists (take limit (points (self w)) :: chunks). simpl.
    split_and!.
    + by rewrite Hr.
    + rewrite Hc. apply take_take_drop.
    + by rewrite Hp, drop_drop.
    + done.
    + done.
Qed.

(** X4: Reads that follow each other while nothing comes in, each finding
    the buffer non-empty, cut the buffer into consecutive pieces: put
    together, what they return is the front of the buffer as long as the
    sum of their limits, in buffer order, and the buffer keeps the rest.
    None of these reads suspends. *)
Theorem successive_reads_partition_buffer (limits : list nat) (w : world) :
  served limits (length (points (self w))) = true →
  ∃ chunks,
    (read_each limits w).1 = (fun pts => Now (Points pts)) <$> chunks
    ∧ length chunks = length limits
    ∧ concat chunks = take (sum_list limits) (points (self w))
    ∧ concat chunks ++ points (self (read_each limits w).2) = points (self w)
    ∧ reads (read_each limits w).2 = reads w.
Proof.
  intros Hs.
  destruct (read_each_serves limits w Hs) as (chunks & Hr & Hc & Hp & Hreads & _).
  exists chunks. split_and!; try done.
  - apply (f_equal length) in Hr. rewrite length_fmap in Hr. rewrite <- Hr.
    clear. revert w. induction limits as [|limit limits IH]; intros w; [done|].
    simpl. destruct (read limit w) as [r w1]. specialize (IH w1).
    destruct (read_each limits w1). simpl in *. by rewrite IH.
  - rewrite Hc, Hp. apply take_drop.
Qed.

End RoundTrip.

(** Two points posted to the adapter without options and read back. *)
Lemma posted_points_are_read_back_witness :
  let req := post_json {| emitted := [JS.Arr [JS.Num 1; JS.Num 2]]; failure := None |} in
  (read 5 (handle_request req (boot default_adapter))).1
  = Now (Points [JS.Num 1; JS.Num 2]).
Proof.
  intros req.
  destruct (@posted_points_are_read_back scripted req (boot default_adapter) 5)
    as (_ & _ & Hall); [reflexivity | reflexivity | discriminate |].
  apply Hall. simpl. lia.
Defined.

(** The same after a parser failure that came after the two points. *)
Lemma failed_request_keeps_parsed_points_witness :
  let err := {| JS.code := Some "INVALID-JSON"; JS.message := "unexpected end" |} in
  let req := post_json {| emitted := [JS.Arr [JS.Num 1; JS.Num 2]]; failure := Some err |} in
  let w := boot default_adapter in
  points (self (handle_request req w)) = [JS.Num 1; JS.Num 2]
  ∧ ∃ r, reply (handle_request req w) = Some r ∧ refused r = true.
Proof.
  intros err req w.
  destruct (@failed_request_keeps_parsed_points scripted req w eq_refl)
    as (Hpts & _ & Hfail).
  split; [exact Hpts|].
  destruct (Hfail "json" err eq_refl eq_refl eq_refl) as (_ & _ & Hsent & _).
  destruct (Hsent eq_refl) as (r & Hr & Href & _).
  by exists r.
Defined.

(** Five points read with limits 2, 2 and 3. *)
Lemma successive_reads_partition_buffer_witness :
  let pts := [JS.Num 1; JS.Num 2; JS.Num 3; JS.Num 4; JS.Num 5] in
  let w := boot (set_points pts default_adapter) in
  ∃ chunks,
    (read_each [2; 2; 3] w).1 = (fun pts => Now (Points pts)) <$> chunks
    ∧ concat chunks = pts.
Proof.
  intros pts w.
  destruct (successive_reads_partition_buffer [2; 2; 3] w eq_refl)
    as (chunks & Hr & _ & Hc & _).
  exists chunks. split; [exact Hr | exact Hc].
Defined.

(** ** Requests and their answers over a run *)

Section Answers.
Context `{Runtime}.

Lemma warnings_are_no_errors (ws : list (string * JS.error)) :
  Forall (fun t => t.1 = "warning") ws →
  filter (fun t => answered t) ws = [] ∧ filter (fun t => unanswered t) ws = []
  ∧ Forall (fun t => t.1 = "error" ∨ t.1 = "warning") ws.
Proof.
  induction 1 as [|[type err] ws Hw _ (IH1 & IH2 & IH3)]; [done|].
  simpl in Hw. subst type. split_and!.
  - rewrite filter_cons_False; [done|]. unfold answered. simpl. by intros [].
  - rewrite filter_cons_False; [done|]. unfold unanswered. simpl. by intros [].
  - constructor; [by right|done].
Qed.

Lemma error_response_known err :
  known_status (error_response err) = true ∧ body (error_response err) = EmptyString
  ∧ refused (error_response err) = true
  ∧ statusMessage (error_response err) = Some (JS.message err).
Proof.
  unfold known_status, refused, error_response. simpl.
  by repeat case_match.
Qed.

Lemma step_answers w e :
  ∃ rs ts us,
    responses (step w e) = responses w ++ rs
    ∧ triggered (step w e) = triggered w ++ ts
    ∧ unsent (step w e) = unsent w ++ us
    ∧ length rs + length us = (if is_request e then 1 else 0)
    ∧ Forall (fun r => known_status r = true ∧ body r = EmptyString) (rs ++ us)
    ∧ Forall (fun t => t.1 = "error" ∨ t.1 = "warning") ts
    ∧ (fun t => Some (JS.message t.2)) <$> filter (fun t => answered t) ts
      = statusMessage <$> filter (fun r => refused r) rs
    ∧ (fun t => Some (JS.message t.2)) <$> filter (fun t => unanswered t) ts
      = statusMessage <$> us.
Proof.
  assert (Hsilent : responses (step w e) = responses w →
                    triggered (step w e) = triggered w →
                    unsent (step w e) = unsent w → is_request e = false →
    ∃ rs ts us,
      responses (step w e) = responses w ++ rs
      ∧ triggered (step w e) = triggered w ++ ts
      ∧ unsent (step w e) = unsent w ++ us
      ∧ length rs + length us = (if is_request e then 1 else 0)
      ∧ Forall (fun r => known_status r = true ∧ body r = EmptyString) (rs ++ us)
      ∧ Forall (fun t => t.1 = "error" ∨ t.1 = "warning") ts
      ∧ (fun t => Some (JS.message t.2)) <$> filter (fun t => answered t) ts
        = statusMessage <$> filter (fun r => refused r) rs
      ∧ (fun t => Some (JS.message t.2)) <$> filter (fun t => unanswered t) ts
        = statusMessage <$> us).
  { intros -> -> -> ->. exists [], [], []. rewrite !app_nil_r. by split_and!. }
  destruct e as [|req|limit|dt| |].
  - by apply Hsilent.
  - clear Hsilent. change (step w (Incoming req)) with (handle_request req w).
    destruct (handle_request_outcome req w)
      as [(ws & -> & Hws & -> & ->)|(err & ws & -> & Hws & Hend)];
      destruct (warnings_are_no_errors ws Hws) as (Hf1 & Hf2 & Hws').
    + exists [{| statusCode := 200; statusMessage := None; body := EmptyString |}],
             ws, [].
      rewrite app_nil_r, Hf1, Hf2. split_and!; try done.
      by apply Forall_singleton.
    + destruct (error_response_known err) as (Hk & Hb & Hr & Hm).
      destruct (legal_status_text (JS.message err)) eqn:Hl; destruct Hend as [-> ->].
      * exists [error_response err], (ws ++ [("error", err)]), [].
        rewrite app_nil_r, !filter_app, Hf1, Hf2.
        rewrite (filter_cons_True (fun t => answered t)); [|unfold answered; simpl; rewrite Hl; by try intros []].
        rewrite (filter_cons_False (fun t => unanswered t)); [|unfold unanswered; simpl; rewrite Hl; by try intros []].
        rewrite (filter_cons_True (fun r => refused r)); [|by rewrite Hr].
        rewrite ?fmap_app, ?fmap_cons, ?fmap_nil, ?Hm, ?app_nil_l. split_and!; try done.
        -- by apply Forall_singleton.
        -- apply Forall_app. split; [done|]. apply Forall_singleton. by left.
      * exists [], (ws ++ [("error", err)]), [error_response err].
        rewrite app_nil_r, !filter_app, Hf1, Hf2.
        rewrite (filter_cons_False (fun t => answered t)); [|unfold answered; simpl; rewrite Hl; by try intros []].
        rewrite (filter_cons_True (fun t => unanswered t)); [|unfold unanswered; simpl; rewrite Hl; by try intros []].
        rewrite ?fmap_app, ?fmap_cons, ?fmap_nil, ?Hm, ?app_nil_l. split_and!; try done.
        -- by apply Forall_singleton.
        -- apply Forall_app. split; [done|]. apply Forall_singleton. by left.
  - apply Hsilent; try done; simpl; unfold read; (destruct (0 <? _)%nat; [|done]);
      unfold readResult; by destruct (splice0 _ _).
  - by apply Hsilent.
  - apply Hsilent; try done; simpl; unfold teardown; by destruct (server _).
  - by apply Hsilent.
Qed.

(** X5: Over any run every request is answered at most once, and nothing
    else is ever sent: each request either gets one response, or ends
    with [res.end()] throwing and gets none. Every response, sent or
    not, has status 200, 400, 404 or 415 and an empty body. The events
    triggered are [error] and [warning] events only. The [error] events
    whose message is a legal status text are those of the answers that
    are not 200, one for each and in the same order, and the status text
    of each such answer is the message of its error; the [error] events
    whose message is not legal are those of the requests left
    unanswered, in the same order. *)
Theorem every_request_answered_once (w : world) (es : list event) :
  ∃ rs ts us,
    responses (run w es) = responses w ++ rs
    ∧ triggered (run w es) = triggered w ++ ts
    ∧ unsent (run w es) = unsent w ++ us
    ∧ length rs + length us = length (filter (fun e => is_request e) es)
    ∧ Forall (fun r => known_status r = true ∧ body r = EmptyString) (rs ++ us)
    ∧ Forall (fun t => t.1 = "error" ∨ t.1 = "warning") ts
    ∧ (fun t => Some (JS.message t.2)) <$> filter (fun t => answered t) ts
      = statusMessage <$> filter (fun r => refused r) rs
    ∧ (fun t => Some (JS.message t.2)) <$> filter (fun t => unanswered t) ts
      = statusMessage <$> us.
Proof.
  revert w. induction es as [|e es IH]; intros w.
  - exists [], [], []. simpl. rewrite !app_nil_r. by split_and!.
  - change (run w (e :: es)) with (run (step w e) es).
    destruct (step_answers w e)
      as (rs1 & ts1 & us1 & Hr1 & Ht1 & Hu1 & Hn1 & Hk1 & He1 & Hm1 & Hx1).
    destruct (IH (step w e))
      as (rs2 & ts2 & us2 & Hr2 & Ht2 & Hu2 & Hn2 & Hk2 & He2 & Hm2 & Hx2).
    exists (rs1 ++ rs2), (ts1 ++ ts2), (us1 ++ us2).
    rewrite Hr2, Ht2, Hu2, Hr1, Ht1, Hu1, <- !app_assoc.
    apply Forall_app in Hk1 as [Hk1 Hk1'], Hk2 as [Hk2 Hk2'].
    split_and!; try done.
    + rewrite !length_app, filter_cons.
      destruct (decide _) as [Hd|Hd]; destruct (is_request e); simpl in *;
        try done; lia.
    + by rewrite !Forall_app.
    + by apply Forall_app.
    + by rewrite !filter_app, !fmap_app, Hm1, Hm2.
    + by rewrite !filter_app, !fmap_app, Hx1, Hx2.
Qed.

Lemma run_method es w : method (self (run w es)) = method (self w).
Proof.
  revert w. induction es as [|e es IH]; intros w; [done|].
  change (run w (e :: es)) with (run (step w e) es).
  rewrite IH. by destruct (step_fixed w e) as [-> _].
Qed.

(** X6: An adapter that the constructor has built listens for [POST] or for
    [PUT] and for nothing else, whatever has happened to it since:
    a request with another method is answered 404, and it leaves the
    buffer, the pending read and every read promise as they were. *)
Theorem other_methods_always_refused
    (o : options) (pa : params) (a : adapter) (es : list event) (req : request) :
  constructor o pa = inr a →
  req_method req ≠ "POST" → req_method req ≠ "PUT" →
  let w := run (boot a) es in
  (method (self w) = JS.Str "POST" ∨ method (self w) = JS.Str "PUT")
  ∧ statusCode <$> reply (handle_request req w) = Some 404%Z
  ∧ self (handle_request req w) = self w
  ∧ reads (handle_request req w) = reads w.
Proof.
  intros Ha Hpost Hput w.
  assert (Hm : method (self w) = JS.Str "POST" ∨ method (self w) = JS.Str "PUT").
  { unfold w. rewrite run_method. simpl.
    apply constructor_ok_inv in Ha as ([Hf|Hal] & _ & -> & _).
    - left. unfold JS.or_else. by rewrite Hf.
    - apply not_among_allowed in Hal. unfold JS.or_else.
      destruct Hal as [-> | ->]; simpl; auto. }
  assert (Hno : JS.is_str (req_method req) (method (self w)) = false).
  { destruct (JS.is_str _ _) eqn:E; [|done].
    apply is_str_spec in E. destruct Hm as [Hm|Hm]; rewrite Hm in E; congruence. }
  split; [done|].
  unfold handle_request. rewrite Hno. cbn [negb].
  set (err := runtimeError "INVALID-HTTP-METHOD" [("types", "POST")]).
  destruct (handleListenError_sends err w method_text_legal) as (Hres & _).
  destruct (handleListenError_frame err w) as (Hself & Hreads & _).
  split_and!; [|done..].
  unfold reply. by rewrite Hres, last_snoc.
Qed.

End Answers.

(** The adapter without options and a [DELETE] after a [POST]. *)
Lemma other_methods_always_refused_witness :
  let req := @Request scripted "DELETE" (Some "application/json")
               {| emitted := [JS.Arr [JS.Num 7]]; failure := None |} in
  let w := @run scripted (boot default_adapter)
             [Incoming (post_json {| emitted := [JS.Arr [JS.Num 1]]; failure := None |})] in
  statusCode <$> reply (handle_request req w) = Some 404%Z
  ∧ self (handle_request req w) = self w.
Proof.
  intros req w.
  destruct (@other_methods_always_refused scripted no_options {| filter_ast := None |}
              default_adapter
              [Incoming (post_json {| emitted := [JS.Arr [JS.Num 1]]; failure := None |})]
              req) as (_ & Hstatus & Hself & _);
    [reflexivity | discriminate | discriminate |].
  split; [exact Hstatus | exact Hself].
Defined.

(** ** Promises that are settled, and promises that are forgotten *)

Section Forgotten.
Context `{Runtime}.

(** X7: Once a read promise is settled, with points, with [{}] after the
    timeout, it keeps that result whatever happens later: later
    requests, later reads and the timer do not change it. *)
Theorem settled_read_keeps_its_result
    (w : world) (es : list event) (pid : nat) (pr : read_promise) (r : result) :
  reads w !! pid = Some pr →
  settled pr = Some r →
  reads (run w es) !! pid = Some pr
  ∧ settled <$> reads (run w es) !! pid = Some (Some r).
Proof.
  intros Hpr Hr.
  destruct (run_promise es w pid pr Hpr) as (pr' & Hpr' & _ & Hsame).
  rewrite Hpr', Hsame; [by rewrite <- Hr|].
  intros Hp. unfold settled in Hr. by rewrite Hp in Hr.
Qed.

(** A promise that [pendingRead] does not name stays out of reach of
    the parser callback. *)
Lemma unnamed_on_points w payload pid pr :
  reads w !! pid = Some pr →
  pendingRead (self w) ≠ Some pid →
  reads (on_points w payload) !! pid = Some pr
  ∧ pendingRead (self (on_points w payload)) ≠ Some pid.
Proof.
  intros Hpr Hne.
  destruct (on_points_same_outside w payload) as (_&_&_&_&_&_&_&_&_&_&Hp&_).
  split; [|by rewrite Hp].
  destruct (on_points_effect w payload) as [_ ->].
  destruct (pendingRead (self w)) as [p|] eqn:E; [|done].
  rewrite list_lookup_alter_ne; [done | congruence].
Qed.

Lemma unnamed_ingest payloads w pid pr :
  reads w !! pid = Some pr →
  pendingRead (self w) ≠ Some pid →
  reads (foldl on_points w payloads) !! pid = Some pr
  ∧ pendingRead (self (foldl on_points w payloads)) ≠ Some pid.
Proof.
  revert w. induction payloads as [|payload payloads IH]; intros w Hpr Hne; [done|].
  simpl. destruct (unnamed_on_points w payload pid pr Hpr Hne). by apply IH.
Qed.

Lemma unnamed_step w e pid pr :
  reads w !! pid = Some pr →
  timed pr = HttpServer.Pending ∨ timed pr = TimedOut →
  pendingRead (self w) ≠ Some pid →
  ∃ pr', reads (step w e) !! pid = Some pr'
         ∧ (timed pr' = HttpServer.Pending ∨ timed pr' = TimedOut)
         ∧ pendingRead (self (step w e)) ≠ Some pid.
Proof.
  intros Hpr Ht Hne. destruct e as [|req|limit|dt| |].
  - by exists pr.
  - exists pr. change (step w (Incoming req)) with (handle_request req w).
    split_and!; [|done|].
    + destruct (handle_request_reads req w) as [->|(f & _ & _ & ->)]; [done|].
      by apply unnamed_ingest.
    + destruct (handle_request_self req w) as [[-> _]|(f & _ & _ & ->)]; [done|].
      by apply (unnamed_ingest _ w pid pr).
  - simpl. unfold read. destruct (0 <? _)%nat.
    + exists pr. unfold readResult. destruct (splice0 _ _). simpl. by split_and!.
    + exists pr. simpl. split_and!; [by apply lookup_app_l_Some | done |].
      apply lookup_lt_Some in Hpr. intros [= E]. lia.
  - simpl. rewrite list_lookup_fmap, Hpr. simpl. eexists. split_and!; [done| |done].
    unfold expire. destruct Ht as [Ht|Ht]; rewrite Ht; [|auto].
    destruct (deadline pr <=? _)%Z; simpl; auto.
  - exists pr. simpl. unfold teardown. destruct (server _); simpl; by split_and!.
  - by exists pr.
Qed.

Lemma unnamed_run es w pid pr :
  reads w !! pid = Some pr →
  timed pr = HttpServer.Pending ∨ timed pr = TimedOut →
  pendingRead (self w) ≠ Some pid →
  ∃ pr', reads (run w es) !! pid = Some pr'
         ∧ (timed pr' = HttpServer.Pending ∨ timed pr' = TimedOut).
Proof.
  revert w pr. induction es as [|e es IH]; intros w pr Hpr Ht Hne; [by exists pr|].
  change (run w (e :: es)) with (run (step w e) es).
  destruct (unnamed_step w e pid pr Hpr Ht Hne) as (pr1 & H1 & Ht1 & Hne1).
  by apply (IH _ pr1).
Qed.

(** X8: A read that is still waiting when the next read suspends is
    forgotten: [pendingRead] now names the new promise, so no request
    can hand points to the old one. All it can still do is time out
    with [{}]. *)
Theorem superseded_read_only_times_out
    (w : world) (limit : nat) (old : nat) (es : list event) :
  settled <$> reads w !! old = Some None →
  points (self w) = [] →
  (read limit w).1 = Later (length (reads w))
  ∧ old ≠ length (reads w)
  ∧ (settled <$> reads (run (read limit w).2 es) !! old = Some None
     ∨ settled <$> reads (run (read limit w).2 es) !! old = Some (Some Nothing)).
Proof.
  intros Hold Hempty.
  destruct (reads w !! old) as [pr|] eqn:Hpr; [|done].
  simpl in Hold. injection Hold as Hold.
  assert (Hpending : timed pr = HttpServer.Pending).
  { unfold settled in Hold. by destruct (timed pr). }
  pose proof (lookup_lt_Some _ _ _ Hpr) as Hlt.
  rewrite (read_suspends limit w Hempty). simpl.
  split_and!; [done | lia |].
  set (w1 := with_reads _ _).
  destruct (unnamed_run es w1 old pr) as (pr' & -> & Ht).
  - simpl. by apply lookup_app_l_Some.
  - by left.
  - simpl. intros [= E]. lia.
  - simpl. unfold settled. destruct Ht as [-> | ->]; auto.
Qed.

End Forgotten.

(** Two reads in a row on the adapter without options, then a [POST] of
    one point: the first read does not get it. *)
Lemma superseded_read_only_times_out_witness :
  let w := (read 10 (boot default_adapter)).2 in
  let post := Incoming (post_json {| emitted := [JS.Arr [JS.Num 1]]; failure := None |}) in
  settled <$> reads (@run scripted (read 10 w).2 [post]) !! 0%nat = Some None
  ∨ settled <$> reads (@run scripted (read 10 w).2 [post]) !! 0%nat
    = Some (Some Nothing).
Proof.
  intros w post.
  apply (@superseded_read_only_times_out scripted w 10 0 [post]); reflexivity.
Defined.

(** A read resolved by a [POST] keeps its point through a later timer. *)
Lemma settled_read_keeps_its_result_witness :
  let post := Incoming (post_json {| emitted := [JS.Arr [JS.Num 1]]; failure := None |}) in
  let w := @run scripted (boot default_adapter) [Read 10; post] in
  settled <$> reads (@run scripted w [Elapse 60; post]) !! 0%nat
  = Some (Some (Points [JS.Num 1])).
Proof.
  intros post w.
  apply (@settled_read_keeps_its_result scripted w [Elapse 60; post] 0
           {| deadline := 50; timed := Fulfilled (Points [JS.Num 1]) |});
    reflexivity.
Defined.

(** ** The format of a request *)

Lemma split_free c s : free_of c s = true → JS.split c s = [s].
Proof.
  induction s as [|a s IH]; simpl; [done|].
  intros [Ha Hs]%andb_true_iff. apply negb_true_iff in Ha.
  by rewrite Ha, (IH Hs).
Qed.

Lemma split_at c s s' :
  free_of c s = true → JS.split c (s +:+ String c s') = s :: JS.split c s'.
Proof.
  induction s as [|a s IH]; simpl.
  - intros _. by rewrite Ascii.eqb_refl.
  - intros [Ha Hs]%andb_true_iff. apply negb_true_iff in Ha.
    by rewrite Ha, (IH Hs).
Qed.

(** X9: Only the subtype of the Content-Type counts. For a media type
    [type/subtype] the format is the subtype, so the request gets to the
    parser exactly when the subtype is [json] or [csv], whatever the
    type; a media type without a slash has no format and is refused. *)
Theorem format_is_the_subtype (type subtype : string) :
  free_of "/" type = true → free_of "/" subtype = true →
  format_of (Some (type +:+ "/" +:+ subtype)) = Some subtype
  ∧ supported (format_of (Some (type +:+ "/" +:+ subtype)))
    = (if String.eqb subtype "json" || String.eqb subtype "csv"
       then Some subtype else None)
  ∧ format_of (Some type) = None
  ∧ supported (format_of (Some type)) = None.
Proof.
  intros Ht Hs.
  assert (Hf : format_of (Some (type +:+ "/" +:+ subtype)) = Some subtype).
  { unfold format_of. simpl.
    change ("/" +:+ subtype) with (String "/" subtype).
    by rewrite (split_at _ _ _ Ht), (split_free _ _ Hs). }
  assert (Hn : format_of (Some type) = None).
  { unfold format_of. simpl. by rewrite (split_free _ _ Ht). }
  by rewrite Hf, Hn.
Qed.

(** [text/csv] is taken as [csv]. *)
Lemma format_is_the_subtype_witness :
  supported (format_of (Some ("text" +:+ "/" +:+ "csv"))) = Some "csv".
Proof.
  apply (format_is_the_subtype "text" "csv"); reflexivity.
Defined.

(** ** Following one view on the bus *)

Import Bus.

Lemma construct_channels_differ names p i j v v' :
  (View.construct names p).1 !! i = Some v →
  (View.construct names p).1 !! j = Some v' →
  i ≠ j → View.channel v ≠ View.channel v'.
Proof.
  intros Hi Hj Hne E.
  apply construct_lookup in Hi as [Hi _], Hj as [Hj _].
  rewrite Hi, Hj in E. apply channel_name_inj in E. lia.
Qed.

Lemma heard_app ch l l' : heard ch (l ++ l') = heard ch l ++ heard ch l'.
Proof. apply filter_app. Qed.

(** What one call adds for a listener on channel [ch]. *)
Lemma perform_heard v c p ch :
  heard ch (View.log (View.perform v c p))
  = heard ch (View.log p)
    ++ (if String.eqb (View.channel v) ch
        then heard (View.channel v) (View.log (View.perform v c silent)) else []).
Proof.
  assert (Hsame : String.eqb (View.channel v) (View.channel v) = true)
    by apply String.eqb_refl.
  destruct c; simpl; unfold View.mark, View.tick, View.process, View.eof,
    View.done, View.emit; simpl; rewrite ?heard_app; unfold heard;
    rewrite <- ?app_assoc; simpl;
    rewrite ?filter_cons, ?filter_nil; simpl; rewrite ?Hsame;
    destruct (String.eqb (View.channel v) ch) eqn:E; simpl;
    repeat (case_decide; simpl in *; try done);
    rewrite ?app_nil_r; try done.
Qed.

(** X10: The channel is enough to follow one view. Among everything the
    views of a program put on the bus, the events whose payload carries
    the channel of one view are exactly the events of the calls made on
    that view, one event for each call and in the order of the calls;
    calls on the other views add nothing to them. *)
Theorem channel_separates_views
    (names : list JS.value) (p0 p : View.program) (calls : list (nat * View.call))
    (i : nat) (v : View.view) :
  let vs := (View.construct names p0).1 in
  vs !! i = Some v →
  heard (View.channel v) (View.log (play vs p calls))
  = heard (View.channel v) (View.log p)
    ++ (c ← calls_on i calls;
        heard (View.channel v) (View.log (View.perform v c silent)))
  ∧ (∀ c, ∃ fields,
       heard (View.channel v) (View.log (View.perform v c silent))
       = [View.Emit (event_name c) (JS.Obj fields)]
       ∧ get "channel" fields = JS.Str (View.channel v)).
Proof.
  intros vs Hv. split.
  - revert p. induction calls as [|[j c] calls IH]; intros p.
    + simpl. by rewrite app_nil_r.
    + simpl. rewrite IH. unfold calls_on. rewrite filter_cons. simpl.
      destruct (vs !! j) as [v'|] eqn:Ej.
      * rewrite perform_heard. destruct (decide (j = i)) as [->|Hne].
        -- rewrite Hv in Ej. injection Ej as <-.
           rewrite String.eqb_refl. simpl. by rewrite <- app_assoc.
        -- destruct (String.eqb (View.channel v') (View.channel v)) eqn:E.
           ++ apply String.eqb_eq in E.
              by destruct (construct_channels_differ names p0 j i v' v Ej Hv Hne).
           ++ by rewrite app_nil_r.
      * destruct (decide (j = i)) as [->|Hne]; [congruence | done].
  - assert (Hsame : String.eqb (View.channel v) (View.channel v) = true)
      by apply String.eqb_refl.
    intros c. destruct c; simpl; unfold heard; simpl;
      rewrite ?filter_cons, ?filter_nil; simpl; rewrite ?Hsame;
      repeat (case_decide; simpl in *; try done);
      eexists; (split; [reflexivity | reflexivity]).
Qed.

(** Two views, a mark on each and points on the second. *)
Lemma channel_separates_views_witness :
  let vs := (View.construct [JS.Str "a"; JS.Str "b"] silent).1 in
  let calls := [(0%nat, View.Mark (JS.Num 1)); (1%nat, View.Process (JS.Arr []));
                (1%nat, View.Mark (JS.Num 2))] in
  ∃ v, vs !! 1%nat = Some v
       ∧ heard (View.channel v) (View.log (play vs silent calls))
         = heard (View.channel v) (View.log silent)
           ++ (c ← calls_on 1 calls;
               heard (View.channel v) (View.log (View.perform v c silent))).
Proof.
  intros vs calls. eexists. split; [reflexivity|].
  apply (channel_separates_views [JS.Str "a"; JS.Str "b"] silent silent calls 1).
  reflexivity.
Defined.

(** ** What a run leaves behind *)

Import Run.

Lemma tidy_activated : tidy activated.
Proof. unfold tidy, chain. simpl. split_and!; try done; intros; done. Qed.

Lemma tidy_on_signal st sg : tidy st → tidy (on_signal st sg).
Proof.
  destruct st as [had cur lis dea pd vd han con out].
  unfold tidy, chain. simpl. intros (Hc & Hp & Hd & Hl & Ho & Hh & Hn).
  destruct sg as [msg err|msg|msg err|msg|s|s]; simpl;
    unfold advance, settle_done, settle_views, finally, off_and_deactivate,
      on_error, on_warning; simpl;
    destruct lis, dea, cur, had; simpl in *;
    destruct out as [|[|eo]], pd as [|[|ep]], vd as [|[|ev]]; simpl in *;
    try destruct s as [|es]; simpl;
    try (destruct han; simpl);
    try (exfalso; first
      [ by (destruct Hc as [Hc1 Hc2]; first [discriminate (Hc1 eq_refl) | discriminate (Hc2 eq_refl)])
      | by (destruct Hp as [Hp1 Hp2]; first [discriminate (Hp1 eq_refl) | discriminate (Hp2 eq_refl)])
      | by (destruct Hd as [Hd1 Hd2]; first [discriminate (Hd1 eq_refl) | discriminate (Hd2 eq_refl)])
      | discriminate Hl
      | by (destruct Hn as [Hn1 Hn2]; first [discriminate (Hn1 eq_refl) | discriminate (Hn2 eq_refl)])
      | discriminate (Hh eq_refl) ]);
    split_and!; try done; try (split; intros; done);
    try (intros s' [= <-]; auto);
    try (intros ? [= <-]; destruct (Ho _ eq_refl) as [|E]; [by left | by right]);
    try (by intros [= ->]);
    try (intros s' E; by apply Ho).
Qed.

Lemma tidy_run sgs : tidy (perform_run sgs).
Proof.
  unfold perform_run. generalize tidy_activated. generalize activated.
  induction sgs as [|sg sgs IH]; intros st Hst; [done|].
  simpl. by apply IH, tidy_on_signal.
Qed.

(** X11: [perform_run] deactivates the program on success only:
    [program.deactivate()] has run exactly when [program.done()] and
    [views_done] have both resolved, so when one of them rejects the
    program is not deactivated. The listeners on [program.events] stay
    attached throughout, [program.events.off()] removing none. From the
    activation of the program on, the promise of the run is pending
    exactly while the chain is waiting for one of the two promises. *)
Theorem run_cleans_up_on_success_only (sgs : list signal) :
  let st := perform_run sgs in
  (deactivated st = true ↔ chain st = Settled Resolves)
  ∧ listening st = true
  ∧ (outcome st = Cli.Pending ↔ chain st = Cli.Pending)
  ∧ (∀ e, program_done st = Settled (Rejects e) → deactivated st = false)
  ∧ (∀ e, views_done st = Settled (Rejects e) → deactivated st = false).
Proof.
  intros st. destruct (tidy_run sgs) as (_ & Hp & Hd & Hl & _). fold st in Hp, Hd, Hl.
  split_and!; try done.
  - intros e He. destruct (deactivated st) eqn:E; [|done].
    destruct Hd as [Hd _]. specialize (Hd eq_refl).
    unfold chain in Hd. by rewrite He in Hd.
  - intros e He. destruct (deactivated st) eqn:E; [|done].
    destruct Hd as [Hd _]. specialize (Hd eq_refl).
    unfold chain in Hd. rewrite He in Hd. by destruct (program_done st) as [|[|e']].
Qed.

(** A run whose sinks fail: the program is not deactivated. *)
Lemma run_cleans_up_on_success_only_witness :
  let boom := {| JS.code := None; JS.message := "sink failed" |} in
  let st := perform_run [DoneSettles (Rejects boom); ViewsDoneSettle Resolves] in
  deactivated st = false ∧ listening st = true.
Proof.
  intros boom st.
  destruct (run_cleans_up_on_success_only
              [DoneSettles (Rejects boom); ViewsDoneSettle Resolves])
    as (_ & Hlis & _ & Hrej & _).
  split; [|exact Hlis].
  apply (Hrej boom). reflexivity.
Defined.

Lemma quiet_signal_keeps_flag st sg :
  is_error sg = false → had_an_error (on_signal st sg) = had_an_error st.
Proof.
  destruct sg; simpl; try done; intros _;
    unfold advance, settle_done, settle_views; repeat (case_match; simpl; try done).
Qed.

Lemma quiet_run_keeps_flag sgs st :
  Forall (fun sg => is_error sg = false) sgs →
  had_an_error (foldl on_signal st sgs) = had_an_error st.
Proof.
  revert st. induction sgs as [|sg sgs IH]; intros st Hq; [done|].
  apply Forall_cons in Hq as [Hsg Hq]. simpl.
  by rewrite IH, quiet_signal_keeps_flag.
Qed.

(** X12: The promise of a run ends in one of two ways only: as the chain of
    [program.done()] and [views_done] ends, or rejected with
    [Program terminated with errors]. Without any [error] event it is
    the first: resolved when both resolve, rejected with the reason of
    [program.done()] when that rejects, and with the reason of
    [views_done] when only that rejects; and no error was handled. *)
Theorem outcome_follows_the_chain (sgs : list signal) :
  let st := perform_run sgs in
  (∀ s, outcome st = Settled s →
     s = Rejects terminated_with_errors ∨ Settled s = chain st)
  ∧ (Forall (fun sg => is_error sg = false) sgs →
     had_an_error st = false ∧ handled st = [] ∧ outcome st = chain st).
Proof.
  intros st. destruct (tidy_run sgs) as (_ & _ & _ & _ & Ho & Hh & Hn).
  fold st in Ho, Hh, Hn. split; [done|].
  intros Hq.
  assert (Hflag : had_an_error st = false)
    by (unfold st, perform_run; by rewrite quiet_run_keeps_flag).
  split_and!; [done | by apply Hn | by apply Hh].
Qed.

(** A run whose sinks complete and whose views fail. *)
Lemma outcome_follows_the_chain_witness :
  let boom := {| JS.code := None; JS.message := "view failed" |} in
  outcome (perform_run [ProgramWarning "slow"; DoneSettles Resolves;
                        ViewsDoneSettle (Rejects boom)])
  = Settled (Rejects boom).
Proof.
  intros boom.
  destruct (outcome_follows_the_chain
              [ProgramWarning "slow"; DoneSettles Resolves;
               ViewsDoneSettle (Rejects boom)]) as [_ Hquiet].
  destruct Hquiet as (_ & _ & ->); [by repeat constructor | reflexivity].
Defined.

Lemma outcome_settles_once st sg s :
  outcome st = Settled s → outcome (on_signal st sg) = Settled s.
Proof.
  intros Ho. destruct sg; simpl;
    unfold advance, settle_done, settle_views; repeat (case_match; simpl in *; try done);
    congruence.
Qed.

(** X13: Once the promise of a run is settled nothing changes it: no later
    event, no later settling. The listeners on [program.events] are
    still there, though: an [error] that comes after the run has ended
    is still handed to [CliErrors.handle_error] and sets the flag, and a
    [warning] is still printed. *)
Theorem outcome_is_final (sgs more : list signal) (s : settlement) :
  outcome (perform_run sgs) = Settled s →
  outcome (perform_run (sgs ++ more)) = Settled s
  ∧ ∀ msg err,
      handled (perform_run (sgs ++ [ProgramError msg err]))
      = handled (perform_run sgs) ++ [err]
      ∧ had_an_error (perform_run (sgs ++ [ProgramError msg err])) = true
      ∧ console (perform_run (sgs ++ [ProgramWarning msg]))
        = console (perform_run sgs) ++ ["Warning: " +:+ msg].
Proof.
  intros Ho. split.
  - unfold perform_run in *. rewrite foldl_app.
    revert Ho. generalize (foldl on_signal activated sgs).
    induction more as [|sg more IH]; intros st Ho; [done|].
    simpl. by apply IH, outcome_settles_once.
  - intros msg err.
    destruct (tidy_run sgs) as (_ & _ & _ & Hl & _).
    unfold perform_run in *. rewrite !foldl_app.
    cbn [foldl on_signal]. by rewrite Hl.
Qed.

(** A run that has succeeded, and an error that comes too late. *)
Lemma outcome_is_final_witness :
  let late := {| JS.code := None; JS.message := "late" |} in
  outcome (perform_run ([DoneSettles Resolves; ViewsDoneSettle Resolves]
                        ++ [ProgramError "late" late; ViewError "late" late]))
  = Settled Resolves
  ∧ handled (perform_run ([DoneSettles Resolves; ViewsDoneSettle Resolves]
                          ++ [ProgramError "late" late]))
    = [late].
Proof.
  intros late.
  destruct (outcome_is_final [DoneSettles Resolves; ViewsDoneSettle Resolves]
              [ProgramError "late" late; ViewError "late" late] Resolves)
    as [Hout Hlate]; [reflexivity|].
  split; [exact Hout|].
  by destruct (Hlate "late" late) as (-> & _).
Defined.

Lemma warning_changes_console_only st sg :
  is_warning sg = true → same_but_console (on_signal st sg) st.
Proof.
  destruct sg; simpl; try done; intros _; unfold same_but_console;
    try (destruct (listening st) eqn:E; rewrite ?E); simpl; by rewrite ?E.
Qed.

Lemma on_signal_same_but_console a b sg :
  same_but_console a b → same_but_console (on_signal a sg) (on_signal b sg).
Proof.
  destruct a as [had cur lis dea pd vd han con out].
  destruct b as [had' cur' lis' dea' pd' vd' han' con' out'].
  unfold same_but_console. simpl. intros (-> & -> & -> & -> & -> & -> & -> & ->).
  destruct sg; simpl; unfold advance, settle_done, settle_views, finally,
    off_and_deactivate, on_error, on_warning; simpl;
    repeat (case_match; simpl in *; try done); try done; by split_and!.
Qed.

(** X14: Warnings never decide anything: a run with its [warning] events and
    the same run without them leave every variable the same, the
    promise of the run included, except what was printed. *)
Theorem warnings_change_nothing (sgs : list signal) :
  same_but_console (perform_run sgs)
                   (perform_run (filter (fun sg => is_warning sg = false) sgs))
  ∧ outcome (perform_run sgs)
    = outcome (perform_run (filter (fun sg => is_warning sg = false) sgs)).
Proof.
  assert (Hsim : ∀ a b, same_but_console a b →
            same_but_console (foldl on_signal a sgs)
              (foldl on_signal b (filter (fun sg => is_warning sg = false) sgs))).
  { induction sgs as [|sg sgs IH]; intros a b Hab; [done|].
    rewrite filter_cons. simpl. destruct (decide _) as [Hw|Hw].
    - simpl. by apply IH, on_signal_same_but_console.
    - apply IH. apply not_false_is_true in Hw.
      destruct (warning_changes_console_only a sg Hw) as (?&?&?&?&?&?&?&?).
      unfold same_but_console in *. destruct_and!. split_and!; congruence. }
  assert (Hrefl : same_but_console activated activated) by (by repeat split).
  specialize (Hsim _ _ Hrefl). split; [done|].
  by destruct Hsim as (_&_&_&_&_&_&_&?).
Qed.

(** ** From the outcome of a run to the front end *)

Import Front.

Section FrontEnd.
Variable instanceof_JuttleError : JS.error → bool.

Lemma run_ending_pending sgs :
  run_ending (inr tt) sgs = None ↔ chain (perform_run sgs) = Cli.Pending.
Proof.
  destruct (tidy_run sgs) as (_ & Hp & _). unfold run_ending.
  destruct (outcome (perform_run sgs)) as [|[|e]] eqn:E.
  - split; [intros _; by apply Hp | done].
  - split; [done | intros Hc; apply Hp in Hc; congruence].
  - split; [done | intros Hc; apply Hp in Hc; congruence].
Qed.

(** X15: Started with [-e] on a program that compiles, in run mode, the
    script ends as the run does: nothing while the run is going on, exit
    status 0 without a word when the promise of the run resolves, and
    the error handled and exit status 1 when it rejects. So an [error]
    event heard during the run gives exit status 1 once
    [program.done()] and [views_done] are settled, also when both
    resolved. No prompt is shown on this path. *)
Theorem exit_status_of_a_run
    (prompt src : string) (readFile : string → JS.error + string)
    (sgs : list signal) :
  src ≠ EmptyString →
  let fx := start instanceof_JuttleError "run" prompt [] src readFile
              (fun _ _ => run_ending (inr tt) sgs) in
  (outcome (perform_run sgs) = Cli.Pending → fx = [])
  ∧ (outcome (perform_run sgs) = Settled Resolves → fx = [Exit 0])
  ∧ (∀ e, outcome (perform_run sgs) = Settled (Rejects e) →
       fx = [HandleError e; Exit 1])
  ∧ (∀ before msg err after,
       sgs = before ++ [ProgramError msg err] ++ after →
       outcome (perform_run before) = Cli.Pending →
       chain (perform_run sgs) ≠ Cli.Pending →
       fx = [HandleError terminated_with_errors; Exit 1])
  ∧ (∀ text, Prompt text ∉ fx).
Proof.
  intros Hsrc fx.
  assert (Hfx : fx = batch instanceof_JuttleError prompt (run_ending (inr tt) sgs)).
  { unfold fx, start. destruct (String.eqb src EmptyString) eqn:E; [|done].
    by apply String.eqb_eq in E. }
  assert (Hrej : ∀ e, outcome (perform_run sgs) = Settled (Rejects e) →
                      fx = [HandleError e; Exit 1]).
  { intros e He. rewrite Hfx. unfold run_ending, batch, perform_mode.
    rewrite He. simpl. by rewrite andb_false_r. }
  split_and!.
  - intros Hp. rewrite Hfx. unfold run_ending. by rewrite Hp.
  - intros Hr. rewrite Hfx. unfold run_ending. by rewrite Hr.
  - done.
  - intros before msg err after -> Hbefore Hchain. apply Hrej.
    destruct (observed_error_fails_run before msg err after Hbefore)
      as (_ & _ & [Hp|Hr] & _); [|done].
    destruct (tidy_run (before ++ [ProgramError msg err] ++ after)) as (_ & Hpc & _).
    by apply Hpc in Hp.
  - intros text. rewrite Hfx. unfold run_ending, batch, perform_mode.
    destruct (outcome (perform_run sgs)) as [|[|e]]; simpl;
      rewrite ?andb_false_r; simpl; intros Hin;
      repeat (apply elem_of_cons in Hin as [Hin|Hin]; [discriminate|]);
      by apply elem_of_nil in Hin.
Qed.

(** X16: At the interactive prompt, where [prompt_when_done] is left
    undefined, [perform_mode] brings the prompt back after a success
    and after a [JuttleError], which it handles and swallows. Any other
    error is handled and thrown again, and no prompt is shown. The
    error of a run with errors is of that kind: after such a run the
    prompt does not come back, while a program that does not compile
    gets it back. *)
Theorem prompt_returns_after_juttle_errors_only
    (prompt : string) (sgs : list signal) (bad : JS.error) :
  instanceof_JuttleError terminated_with_errors = false →
  instanceof_JuttleError bad = true →
  (∀ thing, ∃ shown,
     perform_mode instanceof_JuttleError prompt None (Fulfils thing)
     = (shown ++ [Prompt prompt], Resolves) ∧ Prompt prompt ∉ shown)
  ∧ (∀ err,
       perform_mode instanceof_JuttleError prompt None (Fails err)
       = if instanceof_JuttleError err
         then ([HandleError err; Prompt prompt], Resolves)
         else ([HandleError err], Rejects err))
  ∧ (∃ e, run_ending (inl bad) sgs = Some e
          ∧ perform_mode instanceof_JuttleError prompt None e
            = ([HandleError bad; Prompt prompt], Resolves))
  ∧ (∀ before msg err after,
       sgs = before ++ [ProgramError msg err] ++ after →
       outcome (perform_run before) = Cli.Pending →
       chain (perform_run sgs) ≠ Cli.Pending →
       ∃ e, run_ending (inr tt) sgs = Some e
            ∧ perform_mode instanceof_JuttleError prompt None e
              = ([HandleError terminated_with_errors],
                 Rejects terminated_with_errors)).
Proof.
  intros Hplain Hbad. split_and!.
  - intros thing. exists (show thing). split; [done|].
    destruct thing; simpl; intros Hin;
      repeat (apply elem_of_cons in Hin as [Hin|Hin]; [discriminate|]);
      by apply elem_of_nil in Hin.
  - intros err. unfold perform_mode. simpl. by rewrite andb_true_r.
  - eexists. split; [done|]. unfold perform_mode. by rewrite Hbad.
  - intros before msg err after -> Hbefore Hchain.
    destruct (observed_error_fails_run before msg err after Hbefore)
      as (_ & _ & [Hp|Hr] & _).
    + destruct (tidy_run (before ++ [ProgramError msg err] ++ after)) as (_ & Hpc & _).
      by apply Hpc in Hp.
    + eexists. unfold run_ending. rewrite Hr. split; [done|].
      unfold perform_mode. by rewrite Hplain.
Qed.

End FrontEnd.

(** [juttle -e ...] on a run that hears an error and whose sinks and
    views complete. *)
Lemma exit_status_of_a_run_witness :
  let err := {| JS.code := Some "INVALID-TYPE"; JS.message := "bad type" |} in
  start coded "run" "juttle> " [] "read http_server | view text"
        (fun _ => inr "read http_server | view text")
        (fun _ _ => run_ending (inr tt)
                      ([] ++ [ProgramError "bad type" err]
                          ++ [DoneSettles Resolves; ViewsDoneSettle Resolves]))
  = [HandleError terminated_with_errors; Exit 1].
Proof.
  intros err.
  apply (exit_status_of_a_run coded "juttle> " "read http_server | view text"
           (fun _ => inr "read http_server | view text")
           ([] ++ [ProgramError "bad type" err]
               ++ [DoneSettles Resolves; ViewsDoneSettle Resolves]))
    with (before := []) (msg := "bad type") (err := err)
         (after := [DoneSettles Resolves; ViewsDoneSettle Resolves]);
    [discriminate | reflexivity | reflexivity | discriminate].
Defined.

(** The same run at the interactive prompt. *)
Lemma prompt_returns_after_juttle_errors_only_witness :
  let err := {| JS.code := Some "INVALID-TYPE"; JS.message := "bad type" |} in
  let sgs := [] ++ [ProgramError "bad type" err]
                ++ [DoneSettles Resolves; ViewsDoneSettle Resolves] in
  ∃ e, run_ending (inr tt) sgs = Some e
       ∧ perform_mode coded "juttle> " None e
         = ([HandleError terminated_with_errors], Rejects terminated_with_errors).
Proof.
  intros err sgs.
  destruct (prompt_returns_after_juttle_errors_only coded "juttle> " sgs err)
    as (_ & _ & _ & Hrun); [reflexivity | reflexivity |].
  apply (Hrun [] "bad type" err [DoneSettles Resolves; ViewsDoneSettle Resolves]);
    [reflexivity | reflexivity | discriminate].
Defined.

(** ** The interactive prompt *)

Import Repl.

Lemma string_app_assoc (a b c : string) : (a +:+ b) +:+ c = a +:+ (b +:+ c).
Proof.
  induction a as [|x a IH]; [done|].
  change (String x ((a +:+ b) +:+ c) = String x (a +:+ (b +:+ c))).
  by rewrite IH.
Qed.

Lemma string_app_empty (a : string) : a +:+ EmptyString = a.
Proof.
  induction a as [|x a IH]; [done|].
  change (String x (a +:+ EmptyString) = String x a).
  by rewrite IH.
Qed.

Lemma newlines_to_spaces_free s : free_of newline (newlines_to_spaces s) = true.
Proof.
  induction s as [|a s IH]; simpl; [done|].
  rewrite IH, andb_true_r.
  destruct (Ascii.eqb a newline) eqn:E; [done | by rewrite E].
Qed.

Lemma newlines_to_spaces_length s :
  String.length (newlines_to_spaces s) = String.length s.
Proof. induction s as [|a s IH]; simpl; [done | by rewrite IH]. Qed.

Lemma handle_keeps_prompt st c :
  prompt st = (if String.eqb (mode st) "run" then "juttle> "
               else "juttle (" +:+ mode st +:+ ")> ") →
  prompt (handle st c).1 = (if String.eqb (mode (handle st c).1) "run" then "juttle> "
                            else "juttle (" +:+ mode (handle st c).1 +:+ ")> ").
Proof.
  intros Hp. destruct c as [m|path [err|src]| |input| |item|]; simpl; try done.
  - by destruct (in_multi_line st).
  - by destruct (in_multi_line st).
Qed.

(** X17: The prompt always tells the mode. From the start of the script on
    and through any commands, [prompt] is [juttle> ] in run mode and
    [juttle (mode)> ] in any other mode, for the mode the session is in;
    and only the [mode] command changes the mode. *)
Theorem prompt_tells_the_mode (opts_mode : string) (cs : list command) :
  let st := (session (initial opts_mode) cs).1 in
  prompt st = (if String.eqb (mode st) "run" then "juttle> "
               else "juttle (" +:+ mode st +:+ ")> ")
  ∧ mode st = default opts_mode
                (last (omap (fun c => match c with SetMode m => Some m | _ => None end) cs)).
Proof.
  assert (Hgen : ∀ st,
    prompt st = (if String.eqb (mode st) "run" then "juttle> "
                 else "juttle (" +:+ mode st +:+ ")> ") →
    let st' := (session st cs).1 in
    prompt st' = (if String.eqb (mode st') "run" then "juttle> "
                  else "juttle (" +:+ mode st' +:+ ")> ")
    ∧ mode st' = default (mode st)
                   (last (omap (fun c => match c with SetMode m => Some m | _ => None end) cs))).
  { induction cs as [|c cs IH]; intros st Hp; [done|].
    simpl. pose proof (handle_keeps_prompt st c Hp) as Hp1.
    destruct (handle st c) as [st1 fx1] eqn:E1. simpl in Hp1.
    specialize (IH st1 Hp1). destruct (session st1 cs) as [st2 fx2]. simpl in *.
    destruct IH as [IH1 IH2]. split; [done|]. rewrite IH2.
    destruct c as [m|path [err|src]| |input| |item|]; simpl in E1;
      try (destruct (in_multi_line st)); simpl in E1; injection E1 as <- <-; simpl;
      try done; rewrite last_cons; by destruct (last _). }
  intros st. apply Hgen. unfold initial. simpl.
  by destruct (String.eqb opts_mode "run").
Qed.

Lemma session_app st cs cs' :
  session st (cs ++ cs')
  = ((session (session st cs).1 cs').1,
     (session st cs).2 ++ (session (session st cs).1 cs').2).
Proof.
  revert st. induction cs as [|c cs IH]; intros st; simpl.
  - by destruct (session st cs').
  - destruct (handle st c) as [st1 fx1]. rewrite IH.
    destruct (session st1 cs) as [st2 fx2]. simpl.
    destruct (session st2 cs') as [st3 fx3]. simpl. by rewrite app_assoc.
Qed.

Lemma collecting body st :
  in_multi_line st = true →
  Forall (fun c => is_typing c = true) body →
  session st body
  = ({| mode := mode st; prompt := prompt st; in_multi_line := true;
        multi_line_src := multi_line_src st +:+ lines_typed (typed body) |},
     omap (fun c => match c with History _ => Some TrimmedHistory | _ => None end) body).
Proof.
  revert st. induction body as [|c body IH]; intros st Hin Hty.
  - simpl. rewrite string_app_empty. destruct st. simpl in *. by subst.
  - apply Forall_cons in Hty as [Hc Hty].
    destruct c as [m|path content| |input| |item|]; try done; simpl; rewrite Hin.
    + rewrite IH by done. simpl. f_equal. f_equal.
      rewrite !string_app_assoc. done.
    + by rewrite IH.
Qed.

(** X18: A multi-line entry: [<], then lines, then [.]. Whatever was being
    collected before is dropped; nothing is run while the lines come in,
    and every history event in between is undone; at the dot exactly one
    program is run, in the mode of the session, whose source is the lines
    in the order typed, each followed by a newline; and one entry goes to
    the history, the same text with a space for each newline, so without
    any newline. *)
Theorem multi_line_entry_runs_once (st : state) (body : list command) :
  Forall (fun c => is_typing c = true) body →
  let src := lines_typed (typed body) in
  session st (Begin :: body ++ [Dot])
  = ({| mode := mode st; prompt := prompt st; in_multi_line := false;
        multi_line_src := src |},
     [AnnouncedMultiLine; Prompted EmptyString; TrimmedHistory]
     ++ omap (fun c => match c with History _ => Some TrimmedHistory | _ => None end) body
     ++ [AddedHistory (newlines_to_spaces src); Performed (mode st) src None])
  ∧ filter (fun e => is_performed e) (session st (Begin :: body ++ [Dot])).2
    = [Performed (mode st) src None]
  ∧ free_of newline (newlines_to_spaces src) = true
  ∧ String.length (newlines_to_spaces src) = String.length src.
Proof.
  intros Hty src.
  assert (Hsession : session st (Begin :: body ++ [Dot])
    = ({| mode := mode st; prompt := prompt st; in_multi_line := false;
          multi_line_src := src |},
       [AnnouncedMultiLine; Prompted EmptyString; TrimmedHistory]
       ++ omap (fun c => match c with History _ => Some TrimmedHistory | _ => None end) body
       ++ [AddedHistory (newlines_to_spaces src); Performed (mode st) src None])).
  { cbn [session handle]. rewrite session_app, (collecting body) by done. by simpl. }
  split_and!.
  - done.
  - rewrite Hsession. cbn [snd]. rewrite !filter_app.
    replace (filter (fun e => is_performed e)
               (omap (fun c => match c with History _ => Some TrimmedHistory | _ => None end) body))
      with (@nil effect).
    + reflexivity.
    + clear. induction body as [|c body IH]; [done|].
      destruct c; simpl; try done.
  - apply newlines_to_spaces_free.
  - apply newlines_to_spaces_length.
Qed.

(** Two lines typed in explain mode, with the history events of [cli]. *)
Lemma multi_line_entry_runs_once_witness :
  let st := (session (initial "run") [SetMode "explain"]).1 in
  let body := [Juttle "emit -limit 1"; History "emit -limit 1";
               Juttle "| view text"; History "| view text"] in
  filter (fun e => is_performed e) (session st (Begin :: body ++ [Dot])).2
  = [Performed "explain" (lines_typed ["emit -limit 1"; "| view text"]) None].
Proof.
  intros st body.
  apply (multi_line_entry_runs_once st body). by repeat constructor.
Defined.

(** ** Which read a request can wake *)

Section LastSuspended.
Context `{Runtime}.

(** [last (seq 0 n)] is the last index of a list of length [n]. *)
Lemma step_last_suspended w e :
  pendingRead (self w) = last (seq 0 (length (reads w))) →
  (is_Some (pendingReadLimit (self w)) ↔ is_Some (pendingRead (self w))) →
  pendingRead (self (step w e)) = last (seq 0 (length (reads (step w e))))
  ∧ (is_Some (pendingReadLimit (self (step w e)))
     ↔ is_Some (pendingRead (self (step w e)))).
Proof.
  intros Hp Hl. destruct e as [|req|limit|dt| |]; simpl; try done.
  - change (handle_request req w) with (step w (Incoming req)).
    assert (Hsame : pendingRead (self (step w (Incoming req))) = pendingRead (self w)
              ∧ pendingReadLimit (self (step w (Incoming req))) = pendingReadLimit (self w)
              ∧ length (reads (step w (Incoming req))) = length (reads w)).
    { change (step w (Incoming req)) with (handle_request req w).
      by destruct (handle_request_frame req w) as (_&_&_&_&_&_&_&_&->&->&->). }
    destruct Hsame as (-> & -> & ->). done.
  - unfold read. destruct (0 <? _)%nat.
    + unfold readResult. by destruct (splice0 _ _).
    + simpl. rewrite length_app. simpl.
      rewrite Nat.add_1_r, seq_S, last_snoc. simpl. split; [done|].
      split; intros _; by eexists.
  - by rewrite length_fmap.
  - unfold teardown. by destruct (server _).
Qed.

Lemma constructor_leaves_no_read o pa a :
  constructor o pa = inr a → pendingRead a = None ∧ pendingReadLimit a = None.
Proof.
  unfold constructor.
  destruct (JS.truthy _ && _); [done|].
  destruct (filter_ast pa); [done|]. by intros [= <-].
Qed.

Lemma run_last_suspended es w :
  pendingRead (self w) = last (seq 0 (length (reads w))) →
  (is_Some (pendingReadLimit (self w)) ↔ is_Some (pendingRead (self w))) →
  pendingRead (self (run w es)) = last (seq 0 (length (reads (run w es))))
  ∧ (is_Some (pendingReadLimit (self (run w es)))
     ↔ is_Some (pendingRead (self (run w es)))).
Proof.
  revert w. induction es as [|e es IH]; intros w Hp Hl; [done|].
  change (run w (e :: es)) with (run (step w e) es).
  destruct (step_last_suspended w e Hp Hl) as [Hp1 Hl1]. by apply IH.
Qed.

Lemma run_reads_grow es w : (length (reads w) ≤ length (reads (run w es)))%nat.
Proof.
  revert w. induction es as [|e es IH]; intros w; [done|].
  change (run w (e :: es)) with (run (step w e) es).
  etrans; [|apply IH].
  destruct e as [|req|limit|dt| |]; simpl; try done.
  - by destruct (handle_request_frame req w) as (_&_&_&_&_&_&_&_&_&_&->).
  - unfold read. destruct (0 <? _)%nat.
    + unfold readResult. by destruct (splice0 _ _).
    + simpl. rewrite length_app. simpl. lia.
  - by rewrite length_fmap.
  - unfold teardown. by destruct (server _).
Qed.

Lemma last_seq_is_Some n : is_Some (last (seq 0 n)) ↔ n ≠ 0%nat.
Proof.
  destruct n as [|n].
  - simpl. split; [by intros [? ?] | done].
  - rewrite seq_S, last_snoc. split; [done | by eexists].
Qed.

(** X19: On an adapter that starts as the constructor leaves it,
    [pendingRead] is unset until the first read suspends and from then
    on always names the read that suspended last, with the limit of that
    read: it is never cleared, and a request can wake no other read. *)
Theorem pending_read_is_the_last_suspended
    (o : options) (pa : params) (a : adapter) (es : list event) :
  constructor o pa = inr a →
  let w := run (boot a) es in
  pendingRead (self w) = last (seq 0 (length (reads w)))
  ∧ (reads w = [] ↔ pendingRead (self w) = None)
  ∧ (is_Some (pendingReadLimit (self w)) ↔ is_Some (pendingRead (self w)))
  ∧ (∀ more, is_Some (pendingRead (self w)) →
       is_Some (pendingRead (self (run w more)))).
Proof.
  intros Ha w.
  apply constructor_leaves_no_read in Ha as [Hnone Hlimit].
  destruct (run_last_suspended es (boot a)) as [Hp Hl].
  { simpl. by rewrite Hnone. }
  { simpl. rewrite Hnone, Hlimit. done. }
  fold w in Hp, Hl. split_and!; try done.
  - rewrite Hp. destruct (reads w) as [|pr prs]; [done|].
    split; [done|]. intros Hlast. exfalso.
    assert (Hs : is_Some (last (seq 0 (length (pr :: prs)))))
      by (by apply last_seq_is_Some).
    rewrite Hlast in Hs. by destruct Hs.
  - intros more Hsome.
    destruct (run_last_suspended more w Hp Hl) as [Hp' _].
    rewrite Hp' . apply last_seq_is_Some.
    rewrite Hp in Hsome. apply last_seq_is_Some in Hsome.
    pose proof (run_reads_grow more w). lia.
Qed.

End LastSuspended.

(** The adapter without options after a read that timed out. *)
Lemma pending_read_is_the_last_suspended_witness :
  let w := @run scripted (boot default_adapter) [Read 10; Elapse 50] in
  pendingRead (self w) = Some 0%nat
  ∧ is_Some (pendingRead (self (@run scripted w [Elapse 1000; Closed]))).
Proof.
  intros w.
  destruct (@pending_read_is_the_last_suspended scripted no_options
              {| filter_ast := None |} default_adapter [Read 10; Elapse 50] eq_refl)
    as (Hp & _ & _ & Hstays).
  split; [exact Hp|]. apply Hstays. by eexists.
Defined.
